(** * The attachment queue of the PowerSync to-do list demo

    A shallow embedding of [src/library/powersync/AttachmentQueue.ts]:
    the attachment table, the SQL statements the queue runs against it,
    and the queue's methods as computations over an explicit queue state.

    - The attachment table is keyed by [id], so it is a finite map from
      ids to the remaining columns.
    - The storage adapter, the clock and the blob reader are collaborators
      outside the repository.  They form the interface [Platform]; every
      operation of it may throw, and the theorems hold for every
      implementation.  [Sim.platform] is one in-memory implementation,
      used to run the queue on concrete inputs.
    - A method is a function from the queue state to an outcome and a new
      queue state.  The state carries a trace of the calls made to the
      collaborators, to the database and to the console, so that "was not
      called" is a statement about the trace.
    - Each method runs alone: the interleaving of the three maintenance
      passes at their suspension points is not part of this model.
      Statements against the database are taken to succeed, and a value
      thrown by a collaborator is an object, so that reading its [error]
      property does not fail.  A collaborator that rejects with [null]
      or [undefined] has no counterpart here; what is stated of
      [uploadAttachment], whose handler reads that property, is stated
      of its own error and of rejections with an object. *)

From Stdlib Require Import ZArith Ascii String DecimalString List Lia.
From stdpp Require Import base option list gmap strings sorting.

Local Open Scope string_scope.
Local Open Scope list_scope.
Local Open Scope nat_scope.

(** ** Data model *)

(** Modelled from the spec: the enumeration [AttachmentState] of
    [AppSchema.ts], which is not among the sources.  The spec lists the
    four states of a record. *)
Inductive AttachmentState : Type :=
  | QUEUED_SYNC
  | QUEUED_UPLOAD
  | QUEUED_DOWNLOAD
  | SYNCED.

#[global] Instance AttachmentState_eq_dec : EqDecision AttachmentState.
Proof. solve_decision. Defined.

(** Modelled from the spec: the interface [AttachmentRecord] of
    [AppSchema.ts].  [local_uri], [media_type] and [size] are optional. *)
Record AttachmentRecord : Type := mkRecord {
  record_id : string;
  filename : string;
  local_uri : option string;
  media_type : option string;
  record_size : option Z;
  state : AttachmentState;
  timestamp : Z
}.

(** The columns of a table row other than its key. *)
Record Row : Type := mkRow {
  row_timestamp : Z;
  row_filename : string;
  row_local_uri : option string;
  row_media_type : option string;
  row_size : option Z;
  row_state : AttachmentState
}.

Abbreviation Table := (gmap string Row).

Definition to_record (i : string) (r : Row) : AttachmentRecord :=
  {| record_id := i;
     filename := row_filename r;
     local_uri := row_local_uri r;
     media_type := row_media_type r;
     record_size := row_size r;
     state := row_state r;
     timestamp := row_timestamp r |}.

Definition with_state (s : AttachmentState) (r : AttachmentRecord) : AttachmentRecord :=
  {| record_id := record_id r;
     filename := filename r;
     local_uri := local_uri r;
     media_type := media_type r;
     record_size := record_size r;
     state := s;
     timestamp := timestamp r |}.

Definition with_media_type (m : option string) (r : AttachmentRecord) : AttachmentRecord :=
  {| record_id := record_id r;
     filename := filename r;
     local_uri := local_uri r;
     media_type := m;
     record_size := record_size r;
     state := state r;
     timestamp := timestamp r |}.

Definition with_local_uri (u : option string) (r : AttachmentRecord) : AttachmentRecord :=
  {| record_id := record_id r;
     filename := filename r;
     local_uri := u;
     media_type := media_type r;
     record_size := record_size r;
     state := state r;
     timestamp := timestamp r |}.

Definition row_with_state (s : AttachmentState) (r : Row) : Row :=
  {| row_timestamp := row_timestamp r;
     row_filename := row_filename r;
     row_local_uri := row_local_uri r;
     row_media_type := row_media_type r;
     row_size := row_size r;
     row_state := s |}.

(** JavaScript truthiness of an optional string: [null], [undefined] and
    the empty string are falsy. *)
Definition truthy (s : option string) : bool :=
  match s with
  | None => false
  | Some EmptyString => false
  | Some _ => true
  end.

(** [s || null] *)
Definition or_null (s : option string) : option string :=
  if truthy s then s else None.

(** ** Outcomes, thrown values and the trace *)

Inductive Thrown : Type :=
  | NoLocalUri (record : AttachmentRecord)
      (* new Error(`No local_uri for record ...`) *)
  | External (error : option string).
      (* a value thrown by a collaborator, with its [error] property *)

(** [e.error == 'Duplicate'], for a thrown object [e].  On [null] or
    [undefined], which [Thrown] does not hold, the test itself would
    raise a TypeError. *)
Definition is_duplicate (e : Thrown) : bool :=
  match e with
  | External (Some s) => bool_decide (s = "Duplicate")
  | _ => false
  end.

(** [OutOfModel] marks a run that left what the model gives a meaning
    to: a statement text the model does not read, or a loop cut off by
    its fuel.  It is not an exception and no handler sees it. *)
Inductive Outcome (A : Type) : Type :=
  | Ok (a : A)
  | Throw (e : Thrown)
  | OutOfModel.

Arguments Ok {A} a.
Arguments Throw {A} e.
Arguments OutOfModel {A}.

(** What a collaborator answers: it returns or it throws. *)
Inductive Reply (A : Type) : Type :=
  | Returns (a : A)
  | Throws (e : Thrown).

Arguments Returns {A} a.
Arguments Throws {A} e.

Definition outcome_of {A : Type} (r : Reply A) : Outcome A :=
  match r with
  | Returns a => Ok a
  | Throws e => Throw e
  end.

Inductive LogLevel : Type := Debug | Log | Error.

Record Blob : Type := mkBlob {
  blob_type : string;
  blob_data : string
}.

Inductive Event : Type :=
  (* storage adapter *)
  | MakeDir (path : string)
  | WriteFile (path data : string)
  | ReadFile (path : string) (mediaType : option string)
  | DeleteFile (name path : string)
  | FileExists (path : string)
  | UploadFile (name data : string) (mediaType : option string)
  | DownloadFile (name : string)
  | ReadBlob (b : Blob)
  (* the reconciliation hook *)
  | GetAttachmentIds
  (* database *)
  | SqlMarkForSync (ids : list string)
  | SqlUpdate (r : AttachmentRecord) (now : Z)
  | SqlDelete (i : string)
  | SqlSelectUpload
  | SqlSelectDownload
  | SqlSelectExpired (offset : Z)
  | BeginTransaction
  | Commit
  | Rollback
  (* console *)
  | Console (l : LogLevel)
  (* lifecycle *)
  | WatchUploads
  | WatchDownloads
  | SetInterval (ms : Z).

#[global] Instance Blob_eq_dec : EqDecision Blob.
Proof. solve_decision. Defined.
#[global] Instance AttachmentRecord_eq_dec : EqDecision AttachmentRecord.
Proof. solve_decision. Defined.
#[global] Instance LogLevel_eq_dec : EqDecision LogLevel.
Proof. solve_decision. Defined.
#[global] Instance Event_eq_dec : EqDecision Event.
Proof. solve_decision. Defined.

(** ** The collaborators *)

(** Modelled from the spec: [AbstractStorageAdapter] (not among the
    sources) with the seven operations the spec lists for it, together
    with the clock read by [new Date().getTime()], the promise that turns
    a downloaded blob into base64 text, and [FileSystem.documentDirectory].
    [W] is the state of the world outside the queue. *)
Class Platform (W : Type) : Type := {
  documentDirectory : string;
  makeDir : string → W → Reply unit * W;
  writeFile : string → string → W → Reply unit * W;
  readFile : string → option string → W → Reply string * W;
  deleteFile : string → string → W → Reply unit * W;
  fileExists : string → W → Reply bool * W;
  uploadFile : string → string → option string → W → Reply unit * W;
  downloadFile : string → W → Reply Blob * W;
  readAsBase64 : Blob → W → Reply string * W;
  getTime : W → Z * W
}.

Definition ATTACHMENT_LOCAL_STORAGE_KEY : string := "attachments".
Definition ATTACHMENT_QUEUE_INTERVAL : Z := 60000.
Definition ATTACHMENT_CACHE_LIMIT : Z := 100.

(** ** The SQL statements *)

Definition rows (t : Table) : list AttachmentRecord :=
  (λ kr, to_record kr.1 kr.2) <$> map_to_list t.

Definition older (a b : AttachmentRecord) : Prop := (timestamp a ≤ timestamp b)%Z.
Definition newer (a b : AttachmentRecord) : Prop := (timestamp b ≤ timestamp a)%Z.

#[global] Instance older_dec a b : Decision (older a b).
Proof. unfold older. apply _. Defined.
#[global] Instance newer_dec a b : Decision (newer a b).
Proof. unfold newer. apply _. Defined.

(** [ORDER BY timestamp ASC] and [ORDER BY timestamp DESC].  SQL leaves
    the order of rows with equal timestamps to the engine; here it is
    the one the merge sort gives. *)
Definition order_by_timestamp_asc : list AttachmentRecord → list AttachmentRecord :=
  merge_sort older.
Definition order_by_timestamp_desc : list AttachmentRecord → list AttachmentRecord :=
  merge_sort newer.

Definition upload_eligible (r : AttachmentRecord) : Prop :=
  local_uri r ≠ None ∧ (state r = QUEUED_UPLOAD ∨ state r = QUEUED_SYNC).
Definition download_eligible (r : AttachmentRecord) : Prop :=
  state r = QUEUED_DOWNLOAD ∨ state r = QUEUED_SYNC.
Definition synced (r : AttachmentRecord) : Prop := state r = SYNCED.

#[global] Instance upload_eligible_dec r : Decision (upload_eligible r).
Proof. unfold upload_eligible. apply _. Defined.
#[global] Instance download_eligible_dec r : Decision (download_eligible r).
Proof. unfold download_eligible. apply _. Defined.
#[global] Instance synced_dec r : Decision (synced r).
Proof. unfold synced. apply _. Defined.

(** The SELECT of [getNextUploadRecord]. *)
Definition select_upload (t : Table) : list AttachmentRecord :=
  order_by_timestamp_asc (filter upload_eligible (rows t)).

(** The SELECT of [getNextDownloadRecords]. *)
Definition select_download (t : Table) : list AttachmentRecord :=
  order_by_timestamp_asc (filter download_eligible (rows t)).

(** The SELECT of [expireCache]: [LIMIT 100 OFFSET limit].  A negative
    OFFSET counts as zero. *)
Definition select_expired (limit : Z) (t : Table) : list AttachmentRecord :=
  take 100 (drop (Z.to_nat limit) (order_by_timestamp_desc (filter synced (rows t)))).

(** The UPDATE of [update]: every column but the key is overwritten. *)
Definition sql_update (now : Z) (r : AttachmentRecord) (t : Table) : Table :=
  alter (λ _, {| row_timestamp := now;
                 row_filename := filename r;
                 row_local_uri := or_null (local_uri r);
                 row_media_type := media_type r;
                 row_size := record_size r;
                 row_state := state r |}) (record_id r) t.

(** The UPDATE of [markForSync]: [SET state = QUEUED_SYNC WHERE id IN (...)]. *)
Definition sql_mark_for_sync (ids : list string) (t : Table) : Table :=
  map_imap (λ i r, Some (if bool_decide (i ∈ ids) then row_with_state QUEUED_SYNC r else r)) t.

(** The DELETE of [delete]. *)
Definition sql_delete (i : string) (t : Table) : Table := delete i t.

(** [markForSync] writes each id between single quotes into the text of
    its statement.  The text is the list of those ids as SQL literals
    when no id contains a single quote; the model reads no other text. *)
Definition sql_plain (s : string) : bool :=
  forallb (λ c, negb (Ascii.eqb c "'"%char)) (list_ascii_of_string s).

(** [s.replace(pat, '')] for a string pattern: the first occurrence of
    [pat] in [s] is removed. *)
Fixpoint remove_first (pat s : string) : string :=
  if String.prefix pat s
  then String.substring (String.length pat) (String.length s - String.length pat) s
  else match s with
       | EmptyString => EmptyString
       | String c s' => String c (remove_first pat s')
       end.

(** ** The queue *)

Section AttachmentQueue.
Context {W : Type} `{!Platform W}.

Record AttachmentQueueOptions : Type := mkOptions {
  getAttachmentIds : option (W → Reply (list string) * W);
  syncInterval : option Z;
  cacheLimit : option Z
}.

(** The fields of the class; [db] and [world] stand for what
    [options.powersync] and [options.storage] give access to. *)
Record Queue : Type := mkQueue {
  uploading : bool;
  downloading : bool;
  options : AttachmentQueueOptions;
  db : Table;
  world : W;
  trace : list Event
}.

Definition set_uploading (b : bool) (q : Queue) : Queue :=
  mkQueue b (downloading q) (options q) (db q) (world q) (trace q).
Definition set_downloading (b : bool) (q : Queue) : Queue :=
  mkQueue (uploading q) b (options q) (db q) (world q) (trace q).
Definition set_db (t : Table) (q : Queue) : Queue :=
  mkQueue (uploading q) (downloading q) (options q) t (world q) (trace q).
Definition set_world (w : W) (q : Queue) : Queue :=
  mkQueue (uploading q) (downloading q) (options q) (db q) w (trace q).
Definition log_event (e : Event) (q : Queue) : Queue :=
  mkQueue (uploading q) (downloading q) (options q) (db q) (world q) (trace q ++ [e]).

(** *** Computations *)

Definition M (A : Type) : Type := Queue → Outcome A * Queue.

Definition ret {A : Type} (a : A) : M A := λ q, (Ok a, q).

Definition bind {A B : Type} (m : M A) (k : A → M B) : M B :=
  λ q, match m q with
       | (Ok a, q') => k a q'
       | (Throw e, q') => (Throw e, q')
       | (OutOfModel, q') => (OutOfModel, q')
       end.

Definition throw {A : Type} (e : Thrown) : M A := λ q, (Throw e, q).

Definition out_of_model {A : Type} : M A := λ q, (OutOfModel, q).

(** [try { m } catch (e) { h e }] *)
Definition try_catch {A : Type} (m : M A) (h : Thrown → M A) : M A :=
  λ q, match m q with
       | (Throw e, q') => h e q'
       | other => other
       end.

(** [try { m } finally { f }] for a block [f] that only assigns. *)
Definition finally {A : Type} (m : M A) (f : Queue → Queue) : M A :=
  λ q, let (o, q') := m q in (o, f q').

Definition emit (e : Event) : M unit := λ q, (Ok tt, log_event e q).

(** A call to a collaborator, recorded in the trace. *)
Definition call {A : Type} (e : Event) (op : W → Reply A * W) : M A :=
  λ q, let (r, w) := op (world q) in (outcome_of r, set_world w (log_event e q)).

(** A query, recorded in the trace. *)
Definition query {A : Type} (e : Event) (sel : Table → A) : M A :=
  λ q, (Ok (sel (db q)), log_event e q).

(** A statement that changes the table, recorded in the trace. *)
Definition execute (e : Event) (upd : Table → Table) : M unit :=
  λ q, (Ok tt, set_db (upd (db q)) (log_event e q)).

(** [new Date().getTime()] *)
Definition now : M Z :=
  λ q, let (t, w) := getTime (world q) in (Ok t, set_world w q).

(** [powersync.writeTransaction(body)]: the statements of [body] are
    undone when it throws. *)
Definition writeTransaction {A : Type} (body : M A) : M A :=
  λ q, match body (log_event BeginTransaction q) with
       | (Ok a, q') => (Ok a, log_event Commit q')
       | (other, q') => (other, log_event Rollback (set_db (db q) q'))
       end.

(** Computations that do not throw, that stay within the model, and
    that only add to the trace. *)
Definition safe {A : Type} (m : M A) : Prop :=
  ∀ q e q', m q ≠ (Throw e, q').
Definition defined {A : Type} (m : M A) : Prop :=
  ∀ q q', m q ≠ (OutOfModel, q').
Definition grows {A : Type} (m : M A) : Prop :=
  ∀ q o q', m q = (o, q') → ∃ tr, trace q' = trace q ++ tr.

Notation "'let!' x ':=' m 'in' k" := (bind m (λ x, k))
  (at level 10, x name, m at level 100, k at level 200, only parsing).
Notation "m '>>' k" := (bind m (λ _, k))
  (at level 100, right associativity, only parsing).

(** *** Construction and start-up *)

Definition constructor (opts : AttachmentQueueOptions) (t : Table) (w : W) : Queue :=
  {| uploading := false;
     downloading := false;
     options := {| getAttachmentIds := getAttachmentIds opts;
                   syncInterval := Some (default ATTACHMENT_QUEUE_INTERVAL (syncInterval opts));
                   cacheLimit := Some (default ATTACHMENT_CACHE_LIMIT (cacheLimit opts)) |};
     db := t;
     world := w;
     trace := [] |}.

Definition ATTACHMENT_STORAGE_PATH : string :=
  documentDirectory ++ ATTACHMENT_LOCAL_STORAGE_KEY.

Definition getLocalUri (name : string) : string :=
  ATTACHMENT_STORAGE_PATH ++ "/" ++ name.

Definition markForSync (ids : list string) : M unit :=
  if bool_decide (0 < length ids)%nat then
    if forallb sql_plain ids
    then execute (SqlMarkForSync ids) (sql_mark_for_sync ids)
    else out_of_model
  else ret tt.

(** [watchUploads] and [watchDownloads] are started and not awaited;
    the model records that they were started. *)
Definition init : M unit :=
  call (MakeDir ATTACHMENT_STORAGE_PATH) (makeDir ATTACHMENT_STORAGE_PATH) >>
  let! attachmentIds := (λ q, match getAttachmentIds (options q) with
                              | Some hook => call GetAttachmentIds hook q
                              | None => ret [] q
                              end) in
  (if bool_decide (0 < length attachmentIds)%nat
   then markForSync attachmentIds
   else ret tt) >>
  emit WatchUploads >>
  emit WatchDownloads >>
  emit (SetInterval ATTACHMENT_QUEUE_INTERVAL).

(** *** Record store *)

Definition update (record : AttachmentRecord) : M unit :=
  let! t := now in
  execute (SqlUpdate record t) (sql_update t record).

(** [record.local_uri || this.getLocalUri(record.filename)] *)
Definition local_path (record : AttachmentRecord) : string :=
  default (getLocalUri (filename record)) (or_null (local_uri record)).

(** [delete(record, tx)]; [in_tx] tells whether [tx] was supplied. *)
Definition delete (record : AttachmentRecord) (in_tx : bool) : M unit :=
  (if in_tx
   then execute (SqlDelete (record_id record)) (sql_delete (record_id record))
   else writeTransaction
          (execute (SqlDelete (record_id record)) (sql_delete (record_id record)))) >>
  call (DeleteFile (filename record) (local_path record))
       (deleteFile (filename record) (local_path record)).

Definition getNextUploadRecord : M (option AttachmentRecord) :=
  query SqlSelectUpload (λ t, head (select_upload t)).

Definition getNextDownloadRecords : M (list AttachmentRecord) :=
  query SqlSelectDownload select_download.

(** *** Upload worker *)

Definition uploadAttachment (record : AttachmentRecord) : M bool :=
  match or_null (local_uri record) with
  | None => throw (NoLocalUri record)
  | Some uri =>
      try_catch
        (let! fileBuffer := call (ReadFile uri (media_type record))
                                 (readFile uri (media_type record)) in
         let mediaType := or_null (media_type record) in
         call (UploadFile (filename record) fileBuffer mediaType)
              (uploadFile (filename record) fileBuffer mediaType) >>
         update (with_state SYNCED record) >>
         emit (Console Debug) >>
         ret true)
        (λ e, if is_duplicate e
              then emit (Console Log) >>
                   update (with_state SYNCED record) >>
                   ret false
              else emit (Console Error) >>
                   ret false)
  end.

(** The [while (record)] loop of [uploadRecords], entered with a
    record in hand. *)
Fixpoint upload_loop (fuel : nat) (record : AttachmentRecord) : M unit :=
  match fuel with
  | O => out_of_model
  | S fuel' =>
      let! uploaded := uploadAttachment record in
      if uploaded
      then let! next := getNextUploadRecord in
           match next with
           | Some record' => upload_loop fuel' record'
           | None => ret tt
           end
      else ret tt
  end.

Definition uploadRecords_fuel (fuel : nat) : M unit :=
  λ q, if uploading q then (Ok tt, q)
       else finally
              (try_catch
                 (let! record := getNextUploadRecord in
                  match record with
                  | None => ret tt
                  | Some record =>
                      emit (Console Debug) >>
                      upload_loop fuel record >>
                      emit (Console Debug)
                  end)
                 (λ _, emit (Console Error)))
              (set_uploading false)
              (set_uploading true q).

(** Every turn of the loop but the last takes one row out of the
    upload candidates, so one more turn than there are rows is enough
    (see [upload_loop_fuel]). *)
Definition uploadRecords : M unit :=
  λ q, uploadRecords_fuel (S (size (db q))) q.

(** *** Download worker *)

(** Lines 210-212: a record without a local path gets the one derived
    from its file name. *)
Definition ensure_local_uri (record : AttachmentRecord) : AttachmentRecord :=
  if truthy (local_uri record) then record
  else with_local_uri (Some (getLocalUri (filename record))) record.

(** The [try] block of [downloadRecord]: fetch, decode, write, and
    only then the update of the row. *)
Definition download_attempt (record : AttachmentRecord) (uri : string) : M bool :=
  let! fileBlob := call (DownloadFile (filename record)) (downloadFile (filename record)) in
  let! base64Data := call (ReadBlob fileBlob) (readAsBase64 fileBlob) in
  call (MakeDir (remove_first (filename record) uri))
       (makeDir (remove_first (filename record) uri)) >>
  call (WriteFile uri base64Data) (writeFile uri base64Data) >>
  update (with_state SYNCED (with_media_type (Some (blob_type fileBlob)) record)) >>
  emit (Console Debug) >>
  ret true.

Definition downloadRecord (record0 : AttachmentRecord) : M bool :=
  let record := ensure_local_uri record0 in
  let uri := local_path record0 in
  let! present := call (FileExists uri) (fileExists uri) in
  if (present : bool)
  then emit (Console Debug) >>
       update (with_state SYNCED record) >>
       ret true
  else
    try_catch (download_attempt record uri)
              (λ _, emit (Console Error) >> ret false).

(** The [for ... of] loop of [downloadRecords]. *)
Fixpoint download_loop (records : list AttachmentRecord) : M unit :=
  match records with
  | [] => ret tt
  | record :: rest => downloadRecord record >> download_loop rest
  end.

Definition downloadRecords : M unit :=
  λ q, if downloading q then (Ok tt, q)
       else finally
              (try_catch
                 (let! recordsToDownload := getNextDownloadRecords in
                  if bool_decide (length recordsToDownload = 0)%nat
                  then ret tt
                  else emit (Console Debug) >>
                       download_loop recordsToDownload >>
                       emit (Console Debug))
                 (λ _, emit (Console Error)))
              (set_downloading false)
              (set_downloading true q).

(** *** Cache evictor *)

Fixpoint delete_all (records : list AttachmentRecord) : M unit :=
  match records with
  | [] => ret tt
  | record :: rest => delete record true >> delete_all rest
  end.

(** [OFFSET ${this.options.cacheLimit}]: the model reads the statement
    when the option holds a number. *)
Definition expireCache : M unit :=
  λ q, match cacheLimit (options q) with
       | None => out_of_model q
       | Some limit =>
           (let! res := query (SqlSelectExpired limit) (select_expired limit) in
            if bool_decide (length res = 0)%nat
            then ret tt
            else emit (Console Debug) >>
                 writeTransaction (delete_all res)) q
       end.

End AttachmentQueue.

Arguments AttachmentQueueOptions W : clear implicits.
Arguments Queue W : clear implicits.
Arguments M W : clear implicits.

(** ** An in-memory platform *)

(** Modelled from the spec: a storage adapter over two finite maps, the
    local files by path and the remote objects by name.  The remote
    store refuses an upload under a name it already holds with the
    duplicate signal, and every remote call fails while [online] is
    off.  Deleting a file that is not there is tolerated. *)
Module Sim.

Record World : Type := mkWorld {
  files : gmap string string;
  remote : gmap string Blob;
  online : bool;
  clock : Z
}.

Definition set_files (f : gmap string string) (w : World) : World :=
  mkWorld f (remote w) (online w) (clock w).
Definition set_remote (r : gmap string Blob) (w : World) : World :=
  mkWorld (files w) r (online w) (clock w).

Definition network_error : Thrown := External (Some "Network request failed").
Definition duplicate_error : Thrown := External (Some "Duplicate").
Definition not_found : Thrown := External None.

#[global] Instance platform : Platform World := {|
  documentDirectory := "/doc/";
  makeDir := λ _ w, (Returns tt, w);
  writeFile := λ path data w, (Returns tt, set_files (<[path := data]> (files w)) w);
  readFile := λ path _ w,
    match files w !! path with
    | Some data => (Returns data, w)
    | None => (Throws not_found, w)
    end;
  deleteFile := λ _ path w, (Returns tt, set_files (base.delete path (files w)) w);
  fileExists := λ path w, (Returns (bool_decide (is_Some (files w !! path))), w);
  uploadFile := λ name data mediaType w,
    if online w then
      match remote w !! name with
      | Some _ => (Throws duplicate_error, w)
      | None => (Returns tt, set_remote (<[name := mkBlob (default EmptyString mediaType) data]> (remote w)) w)
      end
    else (Throws network_error, w);
  downloadFile := λ name w,
    if online w then
      match remote w !! name with
      | Some b => (Returns b, w)
      | None => (Throws not_found, w)
      end
    else (Throws network_error, w);
  readAsBase64 := λ b w, (Returns (blob_data b), w);
  getTime := λ w, (clock w, mkWorld (files w) (remote w) (online w) (clock w + 1))
|}.

(** A row with a local file path under the attachment directory. *)
Definition row (t : Z) (name : string) (uri : option string) (s : AttachmentState) : Row :=
  mkRow t name uri (Some "image/jpeg") None s.

Definition queue (opts : AttachmentQueueOptions World) (t : Table) (w : World) : Queue World :=
  constructor opts t w.

Definition defaults : AttachmentQueueOptions World := mkOptions None None None.

End Sim.

(** ** Statements about runs *)

(** The row of [i] is there and queued for sync. *)
Definition queued_for_sync (t : Table) (i : string) : Prop :=
  ∃ row, t !! i = Some row ∧ row_state row = QUEUED_SYNC.

(** The delays of the timers a trace registers. *)
Definition timers (tr : list Event) : list Z :=
  omap (λ e, match e with SetInterval ms => Some ms | _ => None end) tr.

(** The number of SYNCED rows. *)
Definition count_synced (t : Table) : nat := length (filter synced (rows t)).

(** The SYNCED rows from the most recently touched on, and the first
    [limit] of them. *)
Definition synced_by_recency (t : Table) : list AttachmentRecord :=
  order_by_timestamp_desc (filter synced (rows t)).
Definition retained (limit : Z) (t : Table) : list AttachmentRecord :=
  take (Z.to_nat limit) (synced_by_recency t).

(** The table without the rows of the given records. *)
Definition delete_rows (records : list AttachmentRecord) (t : Table) : Table :=
  foldl (λ t' r, sql_delete (record_id r) t') t records.

(** The file deletions a trace holds. *)
Definition is_file_deletion (e : Event) : Prop :=
  match e with DeleteFile _ _ => True | _ => False end.

#[global] Instance is_file_deletion_dec e : Decision (is_file_deletion e).
Proof. destruct e; simpl; apply _. Defined.

Definition file_deletions (tr : list Event) : list Event :=
  filter is_file_deletion tr.

(** ** Concrete runs on the in-memory platform *)

Module Scenario.

Definition world : Sim.World := Sim.mkWorld ∅ ∅ true 1000.

(** Reconciliation with the ids x and y, of which only x has a row. *)
Definition hook_xy : Sim.World → Reply (list string) * Sim.World :=
  λ w, (Returns ["x"; "y"], w).

Definition table_x : Table :=
  {[ "x" := Sim.row 10 "x.jpg" (Some "/doc/attachments/x.jpg") SYNCED ]}.

Definition reconcile_xy : Queue Sim.World :=
  constructor (mkOptions (Some hook_xy) None None) table_x world.

(** A queue configured with a sync interval of five seconds, and one
    with the interval zero. *)
Definition five_seconds : Queue Sim.World :=
  constructor (mkOptions None (Some 5000%Z) None) ∅ world.
Definition interval_zero : Queue Sim.World :=
  constructor (mkOptions None (Some 0%Z) None) ∅ world.

(** Two upload candidates, a before b, with their files on disk. *)
Definition rec_a : AttachmentRecord :=
  mkRecord "a" "a.jpg" (Some "/doc/attachments/a.jpg") (Some "image/jpeg") None QUEUED_UPLOAD 10.
Definition rec_b : AttachmentRecord :=
  mkRecord "b" "b.jpg" (Some "/doc/attachments/b.jpg") (Some "image/jpeg") None QUEUED_UPLOAD 20.

Definition table_ab : Table :=
  {[ "a" := Sim.row 10 "a.jpg" (Some "/doc/attachments/a.jpg") QUEUED_UPLOAD;
     "b" := Sim.row 20 "b.jpg" (Some "/doc/attachments/b.jpg") QUEUED_UPLOAD ]}.

Definition files_ab : gmap string string :=
  {[ "/doc/attachments/a.jpg" := "AAAA"; "/doc/attachments/b.jpg" := "BBBB" ]}.


(** The remote store holds nothing yet. *)
Definition fresh_ab : Queue Sim.World :=
  constructor Sim.defaults table_ab (Sim.mkWorld files_ab ∅ true 1000).

(** The network is down. *)
Definition offline_ab : Queue Sim.World :=
  constructor Sim.defaults table_ab (Sim.mkWorld files_ab ∅ false 1000).

(** Two download candidates without a local path, and no network. *)
Definition rec_c : AttachmentRecord :=
  mkRecord "c" "c.jpg" None (Some "image/jpeg") None QUEUED_DOWNLOAD 10.

Definition table_cd : Table :=
  {[ "c" := Sim.row 10 "c.jpg" None QUEUED_DOWNLOAD;
     "d" := Sim.row 20 "d.jpg" None QUEUED_DOWNLOAD ]}.

Definition offline_cd : Queue Sim.World :=
  constructor Sim.defaults table_cd (Sim.mkWorld ∅ ∅ false 1000).

(** The file of c is already on disk. *)
Definition present_c : Queue Sim.World :=
  constructor Sim.defaults table_cd
    (Sim.mkWorld {[ "/doc/attachments/c.jpg" := "CCCC" ]} ∅ true 1000).

(** An upload record whose local path is the empty string, and one
    without a local path. *)
Definition rec_empty_uri : AttachmentRecord :=
  mkRecord "e" "e.jpg" (Some EmptyString) (Some "image/jpeg") None QUEUED_UPLOAD 10.
Definition rec_no_uri : AttachmentRecord :=
  mkRecord "f" "f.jpg" None (Some "image/jpeg") None QUEUED_UPLOAD 10.

Definition empty_queue : Queue Sim.World :=
  constructor Sim.defaults ∅ world.

(** [n] SYNCED rows, the row [k] touched at time [k]. *)
Definition synced_id (k : nat) : string :=
  "r" ++ NilEmpty.string_of_uint (Nat.to_uint k).

Definition synced_table (n : nat) : Table :=
  list_to_map ((λ k, (synced_id k, Sim.row (Z.of_nat k) (synced_id k) None SYNCED)) <$> seq 1 n).

Definition synced_150 : Queue Sim.World :=
  constructor Sim.defaults (synced_table 150) world.
Definition synced_201 : Queue Sim.World :=
  constructor Sim.defaults (synced_table 201) world.

End Scenario.

(** ** The rest of the queue *)

(** Modelled from the spec: the two calls of [savePhoto] and
    [newPhotoRecord] that leave the repository, [v4] of the uuid package
    and [FileSystem.getInfoAsync] of expo, which answers with the size
    of a file that exists. *)
Class Device (W : Type) : Type := {
  uuid : W → string * W;
  getInfoAsync : string → W → Reply (option Z) * W
}.

(** An [AttachmentRecord] whose timestamp may be missing: what
    [newPhotoRecord] builds and what [saveToQueue] takes. *)
Record Draft : Type := mkDraft {
  draft_id : string;
  draft_filename : string;
  draft_local_uri : option string;
  draft_media_type : option string;
  draft_size : option Z;
  draft_state : AttachmentState;
  draft_timestamp : option Z
}.

(** [Partial<AttachmentRecord>]: [None] is a property that is absent. *)
Record PartialRecord : Type := mkPartial {
  partial_id : option string;
  partial_filename : option string;
  partial_local_uri : option string;
  partial_media_type : option string;
  partial_size : option Z;
  partial_state : option AttachmentState;
  partial_timestamp : option Z
}.

Definition no_overrides : PartialRecord :=
  mkPartial None None None None None None None.

(** [{ ...record, timestamp }] *)
Definition stamp (t : Z) (d : Draft) : AttachmentRecord :=
  {| record_id := draft_id d;
     filename := draft_filename d;
     local_uri := draft_local_uri d;
     media_type := draft_media_type d;
     record_size := draft_size d;
     state := draft_state d;
     timestamp := t |}.

(** [size || null]: zero is falsy. *)
Definition size_or_null (s : option Z) : option Z :=
  match s with
  | Some 0%Z => None
  | other => other
  end.

(** The row [saveToQueue] binds to its statement. *)
Definition bound_row (r : AttachmentRecord) : Row :=
  {| row_timestamp := timestamp r;
     row_filename := filename r;
     row_local_uri := or_null (local_uri r);
     row_media_type := or_null (media_type r);
     row_size := size_or_null (record_size r);
     row_state := state r |}.

(** The INSERT OR REPLACE of [saveToQueue]. *)
Definition sql_insert_or_replace (r : AttachmentRecord) (t : Table) : Table :=
  <[record_id r := bound_row r]> t.

(** The SELECT of [idsToUpload] and of [idsToDownload], which have no
    ORDER BY: the ids come in the order of the rows. *)
Definition idsToUpload (t : Table) : list string :=
  record_id <$> filter upload_eligible (rows t).
Definition idsToDownload (t : Table) : list string :=
  record_id <$> filter download_eligible (rows t).

Section RecordStore.
Context {W : Type} `{!Platform W} `{!Device W}.

Notation "'let!' x ':=' m 'in' k" := (bind m (λ x, k))
  (at level 10, x name, m at level 100, k at level 200, only parsing).
Notation "m '>>' k" := (bind m (λ _, k))
  (at level 100, right associativity, only parsing).

(** Calls and statements the trace has no entry for. *)
Definition unlogged {A : Type} (op : W → Reply A * W) : M W A :=
  λ q, let (r, w) := op (world q) in (outcome_of r, set_world w q).
Definition unlogged_query {A : Type} (sel : Table → A) : M W A :=
  λ q, (Ok (sel (db q)), q).
Definition unlogged_execute (upd : Table → Table) : M W unit :=
  λ q, (Ok tt, set_db (upd (db q)) q).

Definition getAttachmentRecord (i : string) : M W (option AttachmentRecord) :=
  unlogged_query (λ t, to_record i <$> t !! i).

Definition saveToQueue (record : Draft) : M W AttachmentRecord :=
  let! t := now in
  let updatedRecord := stamp t record in
  unlogged_execute (sql_insert_or_replace updatedRecord) >>
  ret updatedRecord.

Definition newPhotoRecord (record : option PartialRecord) : M W Draft :=
  let p := default no_overrides record in
  let! photoId := match partial_id p with
                  | Some i => ret i
                  | None => λ q, let (u, w) := uuid (world q) in (Ok u, set_world w q)
                  end in
  let name := default (photoId ++ ".jpg")%string (partial_filename p) in
  ret {| draft_id := photoId;
         draft_filename := name;
         draft_local_uri := Some (default (getLocalUri name) (partial_local_uri p));
         draft_media_type := Some (default "image/jpeg" (partial_media_type p));
         draft_size := partial_size p;
         draft_state := default QUEUED_UPLOAD (partial_state p);
         draft_timestamp := partial_timestamp p |}.

Definition with_draft_size (s : option Z) (d : Draft) : Draft :=
  mkDraft (draft_id d) (draft_filename d) (draft_local_uri d) (draft_media_type d)
          s (draft_state d) (draft_timestamp d).

(** [photoAttachment.local_uri!] is the path [newPhotoRecord] has just
    derived. *)
Definition savePhoto (base64Data : string) : M W AttachmentRecord :=
  let! photoAttachment := newPhotoRecord None in
  match draft_local_uri photoAttachment with
  | None => out_of_model
  | Some uri =>
      call (WriteFile uri base64Data) (writeFile uri base64Data) >>
      let! fileInfo := unlogged (getInfoAsync uri) in
      saveToQueue (match fileInfo with
                   | Some bytes => with_draft_size (Some bytes) photoAttachment
                   | None => photoAttachment
                   end)
  end.

Definition clearQueue : M W unit :=
  writeTransaction (unlogged_execute (λ _, ∅)).

(** One turn of the loop of [watchUploads], for the ids the watched
    query has yielded, and one turn of [watchDownloads]. *)
Definition watchUploads_turn (ids : list string) : M W unit :=
  if bool_decide (0 < length ids) then uploadRecords else ret tt.
Definition watchDownloads_turn (ids : list string) : M W unit :=
  if bool_decide (0 < length ids) then downloadRecords else ret tt.

End RecordStore.

(** ** What a run keeps *)

(** No row holds the empty string as its local path. *)
Definition uri_normal (t : Table) : Prop :=
  map_Forall (λ _ row, row_local_uri row ≠ Some EmptyString) t.

(** A computation that keeps a property of the table, whatever its
    outcome. *)
Definition keeps {W A : Type} (P : Table → Prop) (m : M W A) : Prop :=
  ∀ q, P (db q) → P (db (m q).2).

(** What [saveToQueue] leaves of a record in the table: empty strings
    and a size of zero are stored as null. *)
Definition as_stored (r : AttachmentRecord) : AttachmentRecord :=
  to_record (record_id r) (bound_row r).

(** The row of [i] in [t'] is the one of [t], or [P] holds of the old
    row and the new row is SYNCED. *)
Definition same_or_synced (P : AttachmentRecord → Prop) (t t' : Table) : Prop :=
  dom t' = dom t ∧
  ∀ i, t' !! i = t !! i ∨
       ∃ row, t !! i = Some row ∧ P (to_record i row) ∧
              row_state <$> t' !! i = Some SYNCED.

(** The calls of [deleteFile] that a transaction of deletions makes
    for [records], in their order and up to the first that throws. *)
Fixpoint delete_files {W : Type} `{!Platform W}
    (records : list AttachmentRecord) (w : W) : Reply unit * W :=
  match records with
  | [] => (Returns tt, w)
  | record :: rest =>
      match deleteFile (filename record) (local_path record) w with
      | (Returns _, w') => delete_files rest w'
      | (Throws e, w') => (Throws e, w')
      end
  end.

(** A platform every call of which returns. *)
Module Reliable.

Record World : Type := mkWorld { clock : Z }.

#[global] Instance platform : Platform World := {|
  documentDirectory := "/doc/";
  makeDir := λ _ w, (Returns tt, w);
  writeFile := λ _ _ w, (Returns tt, w);
  readFile := λ path _ w, (Returns path, w);
  deleteFile := λ _ _ w, (Returns tt, w);
  fileExists := λ _ w, (Returns false, w);
  uploadFile := λ _ _ _ w, (Returns tt, w);
  downloadFile := λ name w, (Returns (mkBlob "image/png" name), w);
  readAsBase64 := λ b w, (Returns (blob_data b), w);
  getTime := λ w, (clock w, mkWorld (clock w + 1))
|}.

End Reliable.

(** A storage that takes no change: making a directory, writing and
    deleting throw, everything else returns. *)
Module ReadOnly.

Record World : Type := mkWorld { clock : Z }.

Definition refused : Thrown := External (Some "read-only").

#[global] Instance platform : Platform World := {|
  documentDirectory := "/doc/";
  makeDir := λ _ w, (Throws refused, w);
  writeFile := λ _ _ w, (Throws refused, w);
  readFile := λ path _ w, (Returns path, w);
  deleteFile := λ _ _ w, (Throws refused, w);
  fileExists := λ _ w, (Returns false, w);
  uploadFile := λ _ _ _ w, (Returns tt, w);
  downloadFile := λ name w, (Returns (mkBlob "image/png" name), w);
  readAsBase64 := λ b w, (Returns (blob_data b), w);
  getTime := λ w, (clock w, mkWorld (clock w + 1))
|}.

#[global] Instance device : Device World := {|
  uuid := λ w, ("photo-0", w);
  getInfoAsync := λ _ w, (Returns None, w)
|}.

End ReadOnly.

(** A storage that keeps the paths of the files it has deleted, and in
    which the file o.jpg cannot be deleted. *)
Module Pinned.

Record World : Type := mkWorld {
  clock : Z;
  removed : list string
}.

Definition busy : Thrown := External (Some "busy").

#[global] Instance platform : Platform World := {|
  documentDirectory := "/doc/";
  makeDir := λ _ w, (Returns tt, w);
  writeFile := λ _ _ w, (Returns tt, w);
  readFile := λ path _ w, (Returns path, w);
  deleteFile := λ name path w,
    if bool_decide (name = "o.jpg")
    then (Throws busy, w)
    else (Returns tt, mkWorld (clock w) (removed w ++ [path]));
  fileExists := λ _ w, (Returns false, w);
  uploadFile := λ _ _ _ w, (Returns tt, w);
  downloadFile := λ name w, (Returns (mkBlob "image/png" name), w);
  readAsBase64 := λ b w, (Returns (blob_data b), w);
  getTime := λ w, (clock w, mkWorld (clock w + 1) (removed w))
|}.

End Pinned.

(** The events by which [init] starts the watchers and the timer. *)
Definition is_lifecycle (e : Event) : Prop :=
  match e with
  | WatchUploads | WatchDownloads | SetInterval _ => True
  | _ => False
  end.

#[global] Instance is_lifecycle_dec e : Decision (is_lifecycle e).
Proof. destruct e; simpl; apply _. Defined.

Definition lifecycle (tr : list Event) : list Event := filter is_lifecycle tr.

(** Further runs on the in-memory platform. *)
Module Case.

(** Ids are drawn from the clock; a file has the length of its text. *)
#[global] Instance device : Device Sim.World := {|
  uuid := λ w, (("photo-" ++ NilEmpty.string_of_uint (Nat.to_uint (Z.to_nat (Sim.clock w))))%string,
               Sim.mkWorld (Sim.files w) (Sim.remote w) (Sim.online w) (Sim.clock w + 1));
  getInfoAsync := λ path w,
    (Returns (Z.of_nat ∘ String.length <$> Sim.files w !! path), w)
|}.

Definition draft_g : Draft :=
  mkDraft "g" "g.jpg" (Some "/doc/attachments/g.jpg") (Some "image/jpeg") (Some 4%Z)
          QUEUED_UPLOAD None.

(** A table with a row for every state. *)
Definition table_mixed : Table :=
  {[ "a" := Sim.row 10 "a.jpg" (Some "/doc/attachments/a.jpg") QUEUED_UPLOAD;
     "b" := Sim.row 20 "b.jpg" (Some "/doc/attachments/b.jpg") QUEUED_SYNC;
     "c" := Sim.row 30 "c.jpg" None QUEUED_DOWNLOAD;
     "s" := Sim.row 40 "s.jpg" (Some "/doc/attachments/s.jpg") SYNCED ]}.

Definition reliable_mixed : Queue Reliable.World :=
  constructor (mkOptions None None None) table_mixed (Reliable.mkWorld 1000).

Definition sim_mixed : Queue Sim.World :=
  constructor Sim.defaults table_mixed (Sim.mkWorld Scenario.files_ab ∅ true 1000).

Definition rec_s : AttachmentRecord :=
  mkRecord "s" "s.jpg" (Some "/doc/attachments/s.jpg") (Some "image/jpeg") None SYNCED 40.

Definition readonly_mixed : Queue ReadOnly.World :=
  constructor (mkOptions None None (Some 0%Z)) table_mixed (ReadOnly.mkWorld 1000).

(** Three SYNCED rows past a cache limit of zero, s touched last and p
    first, on the storage that does not let go of o.jpg. *)
Definition rec_o : AttachmentRecord :=
  mkRecord "o" "o.jpg" (Some "/doc/attachments/o.jpg") (Some "image/jpeg") None SYNCED 5.
Definition rec_p : AttachmentRecord :=
  mkRecord "p" "p.jpg" None (Some "image/jpeg") None SYNCED 2.

Definition table_sop : Table :=
  {[ "s" := Sim.row 40 "s.jpg" (Some "/doc/attachments/s.jpg") SYNCED;
     "o" := Sim.row 5 "o.jpg" (Some "/doc/attachments/o.jpg") SYNCED;
     "p" := Sim.row 2 "p.jpg" None SYNCED ]}.

Definition pinned_sop : Queue Pinned.World :=
  constructor (mkOptions None None (Some 0%Z)) table_sop (Pinned.mkWorld 1000 []).

(** A row queued for upload that has no local path. *)
Definition row_stuck : Row := Sim.row 5 "u.jpg" None QUEUED_UPLOAD.

Definition sim_stuck : Queue Sim.World :=
  constructor Sim.defaults (<["u" := row_stuck]> table_mixed)
    (Sim.mkWorld Scenario.files_ab ∅ true 1000).

End Case.

(** ** Properties of the queries *)

#[global] Instance older_trans : Transitive older.
Proof. unfold older. intros a b c ? ?. lia. Qed.
#[global] Instance older_total : Total older.
Proof. unfold older. intros a b. lia. Qed.
#[global] Instance newer_trans : Transitive newer.
Proof. unfold newer. intros a b c ? ?. lia. Qed.
#[global] Instance newer_total : Total newer.
Proof. unfold newer. intros a b. lia. Qed.

Lemma elem_of_rows (t : Table) (r : AttachmentRecord) :
  r ∈ rows t ↔ ∃ row, t !! record_id r = Some row ∧ r = to_record (record_id r) row.
Proof.
  unfold rows. rewrite list_elem_of_fmap. split.
  - intros [[i row] [-> Hin]]. apply elem_of_map_to_list in Hin. simpl. eauto.
  - intros [row [Hrow Hr]]. exists (record_id r, row). split; [done|].
    by apply elem_of_map_to_list.
Qed.

Lemma elem_of_select_upload (t : Table) (r : AttachmentRecord) :
  r ∈ select_upload t ↔ upload_eligible r ∧ r ∈ rows t.
Proof.
  unfold select_upload, order_by_timestamp_asc.
  rewrite merge_sort_Permutation. apply list_elem_of_filter.
Qed.

Lemma elem_of_select_download (t : Table) (r : AttachmentRecord) :
  r ∈ select_download t ↔ download_eligible r ∧ r ∈ rows t.
Proof.
  unfold select_download, order_by_timestamp_asc.
  rewrite merge_sort_Permutation. apply list_elem_of_filter.
Qed.

(** C8: the upload-candidate query returns exactly the rows with a
    non-null local_uri and state QUEUED_UPLOAD or QUEUED_SYNC, the
    download-candidate query exactly the rows with state QUEUED_DOWNLOAD
    or QUEUED_SYNC, both in ascending timestamp order; a SYNCED record is
    in neither result and a record with a null local_uri is never an
    upload candidate. *)
Theorem candidate_queries (t : Table) :
  (∀ r, r ∈ select_upload t ↔
        r ∈ rows t ∧ local_uri r ≠ None ∧ (state r = QUEUED_UPLOAD ∨ state r = QUEUED_SYNC)) ∧
  (∀ r, r ∈ select_download t ↔
        r ∈ rows t ∧ (state r = QUEUED_DOWNLOAD ∨ state r = QUEUED_SYNC)) ∧
  StronglySorted older (select_upload t) ∧
  StronglySorted older (select_download t) ∧
  (∀ r, state r = SYNCED → (r ∉ select_upload t) ∧ (r ∉ select_download t)) ∧
  (∀ r, local_uri r = None → r ∉ select_upload t).
Proof.
  split_and!.
  - intros r. rewrite elem_of_select_upload. unfold upload_eligible. tauto.
  - intros r. rewrite elem_of_select_download. unfold download_eligible. tauto.
  - apply StronglySorted_merge_sort; apply _.
  - apply StronglySorted_merge_sort; apply _.
  - intros r Hs. rewrite elem_of_select_upload, elem_of_select_download.
    unfold upload_eligible, download_eligible. rewrite Hs.
    split; intros [H _]; [destruct H as [_ [?|?]] | destruct H]; discriminate.
  - intros r Hn. rewrite elem_of_select_upload. unfold upload_eligible.
    intros [[H _] _]. contradiction.
Qed.

(** ** Computations *)

Ltac run :=
  unfold update, getNextUploadRecord, getNextDownloadRecords,
    now, execute, query, call, emit, try_catch, finally, bind, ret, throw,
    out_of_model, writeTransaction; simpl.

Section Computations.
Context {W : Type} `{!Platform W}.
Implicit Types (q : Queue W) (r : AttachmentRecord).

Lemma safe_ret {A : Type} (a : A) : safe (W := W) (ret a).
Proof. intros q e q'. unfold ret. congruence. Qed.

Lemma safe_emit (ev : Event) : safe (W := W) (emit ev).
Proof. intros q e q'. unfold emit. congruence. Qed.

Lemma safe_update r : safe (update r).
Proof.
  intros q e q'. unfold update, bind, now, execute.
  destruct (getTime (world q)). congruence.
Qed.

Lemma safe_bind {A B : Type} (m : M W A) (k : A → M W B) :
  safe m → (∀ a, safe (k a)) → safe (bind m k).
Proof.
  intros Hm Hk q e q'. unfold bind.
  destruct (m q) as [[a|e'|] q1] eqn:E.
  - apply Hk.
  - exfalso. eapply Hm, E.
  - congruence.
Qed.

Lemma safe_try_catch {A : Type} (m : M W A) (h : Thrown → M W A) :
  (∀ e, safe (h e)) → safe (try_catch m h).
Proof.
  intros Hh q e q'. unfold try_catch.
  destruct (m q) as [[a|e'|] q1]; [congruence|apply Hh|congruence].
Qed.

Lemma defined_ret {A : Type} (a : A) : defined (W := W) (ret a).
Proof. intros q q'. unfold ret. congruence. Qed.

Lemma defined_throw {A : Type} (e : Thrown) : defined (W := W) (A := A) (throw e).
Proof. intros q q'. unfold throw. congruence. Qed.

Lemma defined_emit (ev : Event) : defined (W := W) (emit ev).
Proof. intros q q'. unfold emit. congruence. Qed.

Lemma defined_call {A : Type} (ev : Event) (op : W → Reply A * W) : defined (call ev op).
Proof.
  intros q q'. unfold call. destruct (op (world q)) as [[a|e] w]; simpl; congruence.
Qed.

Lemma defined_update r : defined (update r).
Proof.
  intros q q'. unfold update, bind, now, execute.
  destruct (getTime (world q)). congruence.
Qed.

Lemma defined_bind {A B : Type} (m : M W A) (k : A → M W B) :
  defined m → (∀ a, defined (k a)) → defined (bind m k).
Proof.
  intros Hm Hk q q'. unfold bind.
  destruct (m q) as [[a|e'|] q1] eqn:E.
  - apply Hk.
  - congruence.
  - exfalso. eapply Hm, E.
Qed.

Lemma defined_try_catch {A : Type} (m : M W A) (h : Thrown → M W A) :
  defined m → (∀ e, defined (h e)) → defined (try_catch m h).
Proof.
  intros Hm Hh q q'. unfold try_catch.
  destruct (m q) as [[a|e'|] q1] eqn:E; [congruence|apply Hh|].
  exfalso. eapply Hm, E.
Qed.

Lemma grows_ret {A : Type} (a : A) : grows (W := W) (ret a).
Proof. intros q o q' [= <- <-]. exists []. by rewrite app_nil_r. Qed.

Lemma grows_emit (ev : Event) : grows (W := W) (emit ev).
Proof. intros q o q' [= <- <-]. by exists [ev]. Qed.

Lemma grows_call {A : Type} (ev : Event) (op : W → Reply A * W) : grows (call ev op).
Proof.
  intros q o q'. unfold call. destruct (op (world q)) as [a w].
  intros [= <- <-]. by exists [ev].
Qed.

Lemma grows_update r : grows (update r).
Proof.
  intros q o q'. unfold update, bind, now, execute.
  destruct (getTime (world q)) as [t w]. intros [= <- <-]. simpl. eauto.
Qed.

Lemma grows_bind {A B : Type} (m : M W A) (k : A → M W B) :
  grows m → (∀ a, grows (k a)) → grows (bind m k).
Proof.
  intros Hm Hk q o q'. unfold bind.
  destruct (m q) as [[a|e'|] q1] eqn:E.
  - intros Hk'. destruct (Hm _ _ _ E) as [tr1 H1].
    destruct (Hk _ _ _ _ Hk') as [tr2 H2].
    exists (tr1 ++ tr2). by rewrite H2, H1, app_assoc.
  - intros [= <- <-]. eauto.
  - intros [= <- <-]. eauto.
Qed.

Lemma grows_try_catch {A : Type} (m : M W A) (h : Thrown → M W A) :
  grows m → (∀ e, grows (h e)) → grows (try_catch m h).
Proof.
  intros Hm Hh q o q'. unfold try_catch.
  destruct (m q) as [[a|e'|] q1] eqn:E.
  - intros [= <- <-]. eauto.
  - intros Hh'. destruct (Hm _ _ _ E) as [tr1 H1].
    destruct (Hh _ _ _ _ Hh') as [tr2 H2].
    exists (tr1 ++ tr2). by rewrite H2, H1, app_assoc.
  - intros [= <- <-]. eauto.
Qed.

End Computations.

Ltac comp :=
  repeat first
    [ apply safe_update | apply safe_emit | apply safe_ret
    | apply defined_update | apply defined_emit | apply defined_ret
    | apply defined_call | apply defined_throw
    | apply grows_update | apply grows_emit | apply grows_ret | apply grows_call
    | apply safe_bind; [|intros ?]
    | apply defined_bind; [|intros ?]
    | apply grows_bind; [|intros ?]
    | apply defined_try_catch; [|intros ?]
    | apply grows_try_catch; [|intros ?] ].

(** ** The statements that change the table *)

Lemma sql_update_is_Some (t : Z) (r : AttachmentRecord) (tbl : Table) (i : string) :
  is_Some (tbl !! i) → is_Some (sql_update t r tbl !! i).
Proof.
  intros [row Hrow]. unfold sql_update.
  destruct (decide (record_id r = i)) as [->|Hne].
  - rewrite lookup_alter_eq, Hrow. by eexists.
  - rewrite lookup_alter_ne by done. by eexists.
Qed.

Lemma sql_update_state (t : Z) (r : AttachmentRecord) (tbl : Table) :
  is_Some (tbl !! record_id r) →
  row_state <$> sql_update t r tbl !! record_id r = Some (state r).
Proof.
  intros [row Hrow]. unfold sql_update. by rewrite lookup_alter_eq, Hrow.
Qed.

Lemma sql_update_other (t : Z) (r : AttachmentRecord) (tbl : Table) (i : string) :
  i ≠ record_id r → sql_update t r tbl !! i = tbl !! i.
Proof. intros Hne. unfold sql_update. by rewrite lookup_alter_ne. Qed.

(** ** The upload worker *)

Section UploadWorker.
Context {W : Type} `{!Platform W}.
Implicit Types (q : Queue W) (r : AttachmentRecord).

Lemma or_null_truthy (s : option string) (u : string) :
  or_null s = Some u → s = Some u ∧ truthy s = true.
Proof. unfold or_null. destruct (truthy s) eqn:E; [by intros -> | discriminate]. Qed.

Lemma or_null_falsy (s : option string) :
  or_null s = None ↔ truthy s = false.
Proof. unfold or_null. destruct s as [[|c s]|]; simpl; split; congruence. Qed.

(** The shape of a turn of the loop whose upload did not succeed. *)
Lemma upload_loop_stops fuel r q q1 :
  uploadAttachment r q = (Ok false, q1) →
  upload_loop (S fuel) r q = (Ok tt, q1).
Proof. intros Hup. simpl. unfold bind. rewrite Hup. reflexivity. Qed.

#[local] Arguments upload_loop : simpl never.

(** C5: when the remote upload of a candidate fails for a reason other
    than the duplicate signal, the loop ends the pass at once: nothing
    is fetched or attempted after the failed upload, the table is left
    as it was, and the same record is the head of the queue for the
    next pass. *)
Theorem upload_failure_aborts_pass fuel r q uri buf w1 w2 e :
  or_null (local_uri r) = Some uri →
  readFile uri (media_type r) (world q) = (Returns buf, w1) →
  uploadFile (filename r) buf (or_null (media_type r)) w1 = (Throws e, w2) →
  is_duplicate e = false →
  ∃ q1,
    uploadAttachment r q = (Ok false, q1) ∧
    upload_loop (S fuel) r q = (Ok tt, q1) ∧
    db q1 = db q ∧
    world q1 = w2 ∧
    trace q1 = trace q ++ [ReadFile uri (media_type r);
                           UploadFile (filename r) buf (or_null (media_type r));
                           Console Error] ∧
    (uploading q = false → head (select_upload (db q)) = Some r →
     ∃ q2, uploadRecords q = (Ok tt, q2) ∧
           db q2 = db q ∧
           uploading q2 = false ∧
           trace q2 = trace q ++ [SqlSelectUpload; Console Debug;
                                  ReadFile uri (media_type r);
                                  UploadFile (filename r) buf (or_null (media_type r));
                                  Console Error; Console Debug] ∧
           head (select_upload (db q2)) = Some r).
Proof.
  intros Huri Hread Hup Hdup.
  assert (Hatt : ∀ q0, world q0 = world q →
            uploadAttachment r q0 =
            (Ok false,
             log_event (Console Error)
               (set_world w2
                  (log_event (UploadFile (filename r) buf (or_null (media_type r)))
                     (set_world w1 (log_event (ReadFile uri (media_type r)) q0)))))).
  { intros q0 Hw. unfold uploadAttachment. rewrite Huri. run.
    rewrite Hw, Hread. simpl. rewrite Hup. simpl. rewrite Hdup. reflexivity. }
  eexists. split_and!.
  - apply Hatt. reflexivity.
  - apply upload_loop_stops, Hatt. reflexivity.
  - reflexivity.
  - reflexivity.
  - simpl. by rewrite <- !app_assoc.
  - intros Hflag Hhead. eexists. split_and!.
    + unfold uploadRecords, uploadRecords_fuel. rewrite Hflag. run.
      rewrite Hhead. simpl.
      erewrite upload_loop_stops; [|apply Hatt; reflexivity]. reflexivity.
    + reflexivity.
    + reflexivity.
    + simpl. by rewrite <- !app_assoc.
    + simpl. exact Hhead.
Qed.


(** The first step of [uploadAttachment] on a record with a local
    path: the file is read, and the handler sees what the read throws. *)
Lemma uploadAttachment_reads r uri q :
  or_null (local_uri r) = Some uri →
  ∃ tr, trace (uploadAttachment r q).2 = trace q ++ ReadFile uri (media_type r) :: tr.
Proof.
  intros Huri. unfold uploadAttachment. rewrite Huri.
  set (h := λ e : Thrown, if is_duplicate e then _ else _).
  assert (Hh : ∀ e, grows (h e)).
  { intros e. unfold h. destruct (is_duplicate e); comp. }
  unfold try_catch, bind at 1, call.
  destruct (readFile uri (media_type r) (world q)) as [[buf|e] w]; simpl.
  - set (q1 := set_world w _).
    match goal with |- context [bind ?m ?k q1] => set (rest := bind m k) end.
    assert (Hrest : grows (try_catch rest h)).
    { apply grows_try_catch; [unfold rest; comp|done]. }
    destruct (try_catch rest h q1) as [o q2] eqn:Hrun.
    destruct (Hrest _ _ _ Hrun) as [tr Htr]. exists tr.
    unfold try_catch in Hrun. rewrite Hrun. simpl. rewrite Htr. simpl.
    by rewrite <- app_assoc.
  - set (q1 := set_world w _).
    destruct (h e q1) as [o q2] eqn:Hrun.
    destruct (Hh _ _ _ _ Hrun) as [tr Htr]. exists tr.
    simpl. rewrite Htr. simpl. by rewrite <- app_assoc.
Qed.

(** C9, as the code has it: [uploadAttachment] raises its error for a
    missing local path exactly when the record's local_uri is null or
    the empty string, and it then raises before anything else happens:
    the queue state, with its table, its world and its trace, is the
    one it was called in.  With any other local_uri the record is not
    passed over: the next thing that happens is the read of its
    file. *)
Theorem uploadAttachment_raises_iff_no_local_uri r q :
  ((∃ r' q', uploadAttachment r q = (Throw (NoLocalUri r'), q'))
   ↔ truthy (local_uri r) = false) ∧
  (truthy (local_uri r) = false → uploadAttachment r q = (Throw (NoLocalUri r), q)) ∧
  (truthy (local_uri r) = true →
   ∃ uri tr, local_uri r = Some uri ∧
             trace (uploadAttachment r q).2 = trace q ++ ReadFile uri (media_type r) :: tr).
Proof.
  assert (Hraise : truthy (local_uri r) = false →
                   uploadAttachment r q = (Throw (NoLocalUri r), q)).
  { intros Hf. unfold uploadAttachment.
    apply or_null_falsy in Hf. rewrite Hf. reflexivity. }
  split_and!; [split| exact Hraise |].
  - intros (r' & q' & Hthrow).
    destruct (or_null (local_uri r)) as [uri|] eqn:Huri.
    + exfalso. revert Hthrow. unfold uploadAttachment. rewrite Huri.
      apply safe_try_catch. intros e'.
      destruct (is_duplicate e'); comp.
    + by apply or_null_falsy.
  - intros Hf. eauto.
  - intros Ht. destruct (or_null (local_uri r)) as [uri|] eqn:Huri.
    + destruct (uploadAttachment_reads r uri q Huri) as [tr Htr].
      apply or_null_truthy in Huri as [Huri _]. by exists uri, tr.
    + apply or_null_falsy in Huri. congruence.
Qed.

End UploadWorker.

(** ** The download worker *)

Section DownloadWorker.
Context {W : Type} `{!Platform W}.
Implicit Types (q : Queue W) (r : AttachmentRecord).

Lemma getLocalUri_truthy (name : string) : truthy (Some (getLocalUri name)) = true.
Proof.
  unfold getLocalUri, ATTACHMENT_STORAGE_PATH, ATTACHMENT_LOCAL_STORAGE_KEY.
  induction documentDirectory as [|c s IH]; reflexivity.
Qed.

Lemma ensure_local_uri_path r : local_uri (ensure_local_uri r) = Some (local_path r).
Proof.
  unfold ensure_local_uri, local_path, or_null.
  destruct (truthy (local_uri r)) eqn:E; simpl; [|done].
  destruct (local_uri r); [done|discriminate].
Qed.

Lemma record_id_ensure r : record_id (ensure_local_uri r) = record_id r.
Proof. unfold ensure_local_uri. by destruct (truthy (local_uri r)). Qed.

Lemma local_path_truthy r : truthy (Some (local_path r)) = true.
Proof.
  unfold local_path, or_null. destruct (truthy (local_uri r)) eqn:E; simpl.
  - destruct (local_uri r); [done|discriminate].
  - apply getLocalUri_truthy.
Qed.

Lemma local_path_ensure r : local_path (ensure_local_uri r) = local_path r.
Proof.
  unfold local_path at 1. rewrite ensure_local_uri_path.
  unfold or_null. by rewrite local_path_truthy.
Qed.

Lemma ensure_local_uri_idem r : ensure_local_uri (ensure_local_uri r) = ensure_local_uri r.
Proof.
  unfold ensure_local_uri at 1.
  by rewrite ensure_local_uri_path, local_path_truthy.
Qed.

(** Calling [downloadRecord] on the record it has completed is calling
    it on the record itself. *)
Lemma downloadRecord_ensure r : downloadRecord (ensure_local_uri r) = downloadRecord r.
Proof.
  unfold downloadRecord. by rewrite ensure_local_uri_idem, local_path_ensure.
Qed.

Lemma download_attempt_defined r uri : defined (download_attempt r uri).
Proof. unfold download_attempt. comp. Qed.

Lemma download_attempt_grows r uri : grows (download_attempt r uri).
Proof. unfold download_attempt. comp. Qed.


(** When [fileExists] answers, [downloadRecord] returns. *)
Lemma downloadRecord_returns r q :
  (∃ b w, fileExists (local_path r) (world q) = (Returns b, w)) →
  ∃ b q' tr, downloadRecord r q = (Ok b, q') ∧
             trace q' = trace q ++ FileExists (local_path r) :: tr.
Proof.
  intros (b & w & Hex). unfold downloadRecord, bind at 1, call at 1.
  rewrite Hex. simpl. destruct b.
  - run. destruct (getTime w) as [t w']. simpl. do 3 eexists. split; [done|].
    simpl. rewrite <- !app_assoc. reflexivity.
  - unfold try_catch.
    set (q0 := set_world w (log_event (FileExists (local_path r)) q)).
    destruct (download_attempt (ensure_local_uri r) (local_path r) q0)
      as [[b|e|] q1] eqn:E.
    + destruct (download_attempt_grows _ _ _ _ _ E) as [tr Htr].
      do 3 eexists. split; [done|]. rewrite Htr. simpl.
      rewrite <- app_assoc. reflexivity.
    + destruct (download_attempt_grows _ _ _ _ _ E) as [tr Htr].
      run. do 3 eexists. split; [done|]. simpl. rewrite Htr. simpl.
      rewrite <- !app_assoc. reflexivity.
    + exfalso. eapply download_attempt_defined, E.
Qed.

Lemma download_loop_cons r rest q b q' :
  downloadRecord r q = (Ok b, q') →
  download_loop (r :: rest) q = download_loop rest q'.
Proof. intros Hr. simpl. unfold bind. by rewrite Hr. Qed.

(** With a [fileExists] that answers, the loop visits every record of
    the batch. *)
Lemma download_loop_visits_all (records : list AttachmentRecord) q :
  (∀ p w, ∃ b w', fileExists p w = (Returns b, w')) →
  ∃ q' tr, download_loop records q = (Ok tt, q') ∧
           trace q' = trace q ++ tr ∧
           ∀ r, r ∈ records → FileExists (local_path r) ∈ tr.
Proof.
  intros Hex. revert q. induction records as [|r rest IH]; intros q.
  - exists q, []. split_and!; [done|by rewrite app_nil_r|].
    intros r Hr. by apply elem_of_nil in Hr.
  - destruct (downloadRecord_returns r q) as (b & q1 & tr1 & Hr & Htr1); [apply Hex|].
    destruct (IH q1) as (q2 & tr2 & Hloop & Htr2 & Hall).
    exists q2, (FileExists (local_path r) :: tr1 ++ tr2). split_and!.
    + by rewrite (download_loop_cons _ _ _ _ _ Hr).
    + rewrite Htr2, Htr1. by rewrite <- app_assoc.
    + intros r' Hr'. apply elem_of_cons in Hr' as [->|Hr'].
      * apply list_elem_of_here.
      * apply list_elem_of_further, elem_of_app. right. by apply Hall.
Qed.


(** C7: for a record whose file is already at its local path,
    [downloadRecord] writes the record back as SYNCED and returns
    without a call to [downloadFile]; a second call, on the record as
    completed by the first or on the record itself, does the same. *)
Theorem downloadRecord_present_file r q w1 t1 w2 w3 t2 w4 :
  fileExists (local_path r) (world q) = (Returns true, w1) →
  getTime w1 = (t1, w2) →
  fileExists (local_path r) w2 = (Returns true, w3) →
  getTime w3 = (t2, w4) →
  ∃ q1 q2,
    downloadRecord r q = (Ok true, q1) ∧
    downloadRecord (ensure_local_uri r) q1 = (Ok true, q2) ∧
    downloadRecord r q1 = (Ok true, q2) ∧
    trace q1 = trace q ++ [FileExists (local_path r); Console Debug;
                           SqlUpdate (with_state SYNCED (ensure_local_uri r)) t1] ∧
    trace q2 = trace q1 ++ [FileExists (local_path r); Console Debug;
                            SqlUpdate (with_state SYNCED (ensure_local_uri r)) t2] ∧
    db q1 = sql_update t1 (with_state SYNCED (ensure_local_uri r)) (db q) ∧
    db q2 = sql_update t2 (with_state SYNCED (ensure_local_uri r)) (db q1) ∧
    (∀ name, DownloadFile name ∈ trace q2 → DownloadFile name ∈ trace q) ∧
    (is_Some (db q !! record_id r) →
     row_state <$> db q1 !! record_id r = Some SYNCED ∧
     row_state <$> db q2 !! record_id r = Some SYNCED).
Proof.
  intros Hex1 Ht1 Hex2 Ht2.
  assert (Hcall : ∀ q0 w t w',
            fileExists (local_path r) (world q0) = (Returns true, w) →
            getTime w = (t, w') →
            downloadRecord r q0 =
            (Ok true,
             set_db (sql_update t (with_state SYNCED (ensure_local_uri r)) (db q0))
               (log_event (SqlUpdate (with_state SYNCED (ensure_local_uri r)) t)
                  (set_world w'
                     (log_event (Console Debug)
                        (set_world w (log_event (FileExists (local_path r)) q0))))))).
  { intros q0 w t w' Hex Ht. unfold downloadRecord. run.
    rewrite Hex. simpl. rewrite Ht. reflexivity. }
  pose proof (Hcall q w1 t1 w2 Hex1 Ht1) as H1.
  eexists. eexists. split_and!.
  - exact H1.
  - rewrite downloadRecord_ensure. apply (Hcall _ w3 t2 w4); simpl; assumption.
  - apply (Hcall _ w3 t2 w4); simpl; assumption.
  - simpl. by rewrite <- !app_assoc.
  - simpl. by rewrite <- !app_assoc.
  - reflexivity.
  - reflexivity.
  - intros name. simpl. rewrite !elem_of_app, !list_elem_of_singleton.
    intros [[[[[[?|?]|?]|?]|?]|?]|?]; [done|discriminate..].
  - intros Hrow. simpl.
    set (r' := with_state SYNCED (ensure_local_uri r)).
    assert (Hid : record_id r' = record_id r) by apply record_id_ensure.
    rewrite <- Hid in *. split.
    + by apply sql_update_state.
    + apply sql_update_state. by apply sql_update_is_Some.
Qed.

(** A pass of the download worker over a platform whose [fileExists]
    answers: it returns and has visited every candidate, whatever
    failed on the way. *)
Lemma downloadRecords_visits_all q :
  downloading q = false →
  (∀ p w, ∃ b w', fileExists p w = (Returns b, w')) →
  ∃ q', downloadRecords q = (Ok tt, q') ∧
        downloading q' = false ∧
        ∀ r, r ∈ select_download (db q) → FileExists (local_path r) ∈ trace q'.
Proof.
  intros Hflag Htotal. unfold downloadRecords. rewrite Hflag.
  unfold finally, try_catch, bind at 1, getNextDownloadRecords, query. simpl.
  case_bool_decide as Hlen.
  - eexists. split_and!; [reflexivity..|].
    intros r Hr. apply length_zero_iff_nil in Hlen. rewrite Hlen in Hr.
    by apply elem_of_nil in Hr.
  - unfold bind at 1, emit at 1. unfold bind at 1.
    destruct (download_loop_visits_all (select_download (db q))
                (log_event (Console Debug)
                   (log_event SqlSelectDownload (set_downloading true q))) Htotal)
      as (q1 & tr & Hloop & Htr & Hall).
    rewrite Hloop. unfold emit. eexists. split_and!; [reflexivity..|].
    intros r Hr. simpl. rewrite Htr. set_solver.
Qed.

End DownloadWorker.

(** ** Start-up *)

Section Startup.
Context {W : Type} `{!Platform W}.
Implicit Types (q : Queue W).

Lemma sql_mark_for_sync_lookup (ids : list string) (t : Table) (i : string) :
  sql_mark_for_sync ids t !! i =
  (λ row, if bool_decide (i ∈ ids) then row_with_state QUEUED_SYNC row else row) <$> t !! i.
Proof.
  unfold sql_mark_for_sync. rewrite map_lookup_imap.
  by destruct (t !! i).
Qed.

Lemma timers_snoc (tr : list Event) (e : Event) :
  timers (tr ++ [e]) =
  timers tr ++ match e with SetInterval ms => [ms] | _ => [] end.
Proof. unfold timers. rewrite omap_app. by destruct e. Qed.

Lemma markForSync_plain (ids : list string) q :
  forallb sql_plain ids = true →
  ∃ q', markForSync ids q = (Ok tt, q') ∧
        world q' = world q ∧
        timers (trace q') = timers (trace q) ∧
        ∀ i, db q' !! i =
             (λ row, if bool_decide (i ∈ ids) then row_with_state QUEUED_SYNC row else row)
               <$> db q !! i.
Proof.
  intros Hplain. unfold markForSync. rewrite Hplain.
  case_bool_decide as Hlen.
  - eexists. split_and!; [reflexivity..| |].
    + simpl. by rewrite timers_snoc, app_nil_r.
    + intros i. simpl. apply sql_mark_for_sync_lookup.
  - exists q. split_and!; [reflexivity..|].
    intros i. destruct ids; [|simpl in Hlen; lia].
    rewrite bool_decide_eq_false_2 by apply not_elem_of_nil.
    by destruct (db q !! i).
Qed.

(** C1, as the code has it: reconciliation sets the state of every
    listed id that has a row to QUEUED_SYNC and keeps the other columns
    of the row; an id without a row gets none, and the rows of ids not
    listed stay as they are.  The ids are those the statement quotes
    as they stand, that is, ids without a single quote. *)
Theorem reconciliation_marks_known_ids q hook w1 ids w2 :
  makeDir ATTACHMENT_STORAGE_PATH (world q) = (Returns tt, w1) →
  getAttachmentIds (options q) = Some hook →
  hook w1 = (Returns ids, w2) →
  forallb sql_plain ids = true →
  ∃ q', init q = (Ok tt, q') ∧
        (∀ i, i ∈ ids → db q' !! i = row_with_state QUEUED_SYNC <$> db q !! i) ∧
        (∀ i, i ∉ ids → db q' !! i = db q !! i) ∧
        dom (db q') = dom (db q).
Proof.
  intros Hdir Hopt Hhook Hplain.
  set (q1 := set_world w2 (log_event GetAttachmentIds
               (set_world w1 (log_event (MakeDir ATTACHMENT_STORAGE_PATH) q)))).
  destruct (markForSync_plain ids q1 Hplain) as (q2 & Hmark & _ & _ & Hdb).
  exists (log_event (SetInterval ATTACHMENT_QUEUE_INTERVAL)
            (log_event WatchDownloads (log_event WatchUploads q2))).
  assert (Hlookup : ∀ i, db q2 !! i =
            (λ row, if bool_decide (i ∈ ids) then row_with_state QUEUED_SYNC row else row)
              <$> db q !! i) by exact Hdb.
  split_and!.
  - unfold init, bind at 1, call at 1. rewrite Hdir. simpl.
    unfold bind at 1. simpl. rewrite Hopt. unfold call. simpl. rewrite Hhook. simpl.
    fold q1. unfold bind at 1.
    assert (Hstep : (if bool_decide (0 < length ids)%nat then markForSync ids else ret tt) q1
                    = (Ok tt, q2)).
    { case_bool_decide as Hlen; [done|].
      rewrite <- Hmark. unfold markForSync. by rewrite bool_decide_eq_false_2. }
    rewrite Hstep. reflexivity.
  - intros i Hi. simpl. rewrite Hlookup. by rewrite bool_decide_eq_true_2.
  - intros i Hi. simpl. rewrite Hlookup. rewrite bool_decide_eq_false_2 by done.
    by destruct (db q !! i).
  - simpl. apply set_eq. intros i. rewrite !elem_of_dom, Hlookup.
    by rewrite fmap_is_Some.
Qed.

(** Whatever the options are, the only timer [init] registers has the
    delay [ATTACHMENT_QUEUE_INTERVAL], and it registers it when it
    returns. *)
Ltac timers_done :=
  simpl; rewrite ?timers_snoc; simpl; rewrite ?app_nil_r; done.

Lemma init_timer q o q' :
  init q = (o, q') →
  timers (trace q') =
  timers (trace q) ++ match o with Ok _ => [ATTACHMENT_QUEUE_INTERVAL] | _ => [] end.
Proof.
  unfold init, bind at 1, call at 1.
  destruct (makeDir ATTACHMENT_STORAGE_PATH (world q)) as [[[]|e] w1]; simpl.
  2: { intros [= <- <-]. timers_done. }
  unfold bind at 1. simpl.
  destruct (getAttachmentIds (options q)) as [hook|].
  - unfold call. simpl. destruct (hook w1) as [[ids|e] w2]; simpl.
    2: { intros [= <- <-]. timers_done. }
    unfold bind at 1. case_bool_decide as Hlen.
    + unfold markForSync. rewrite bool_decide_eq_true_2 by done.
      destruct (forallb sql_plain ids); run.
      * intros [= <- <-]. timers_done.
      * intros [= <- <-]. timers_done.
    + run. intros [= <- <-]. timers_done.
  - run. intros [= <- <-]. timers_done.
Qed.

End Startup.

(** ** The cache evictor *)

Section EvictionQuery.
Implicit Types (t : Table) (r : AttachmentRecord) (limit : Z).

Lemma rows_ids t : record_id <$> rows t = (map_to_list t).*1.
Proof. unfold rows. rewrite <- list_fmap_compose. reflexivity. Qed.

Lemma rows_ids_NoDup t : NoDup (record_id <$> rows t).
Proof. rewrite rows_ids. apply NoDup_fst_map_to_list. Qed.

Lemma synced_by_recency_perm t : synced_by_recency t ≡ₚ filter synced (rows t).
Proof. apply merge_sort_Permutation. Qed.

Lemma synced_by_recency_sorted t : StronglySorted newer (synced_by_recency t).
Proof. apply StronglySorted_merge_sort; apply _. Qed.

Lemma synced_by_recency_length t : length (synced_by_recency t) = count_synced t.
Proof. unfold count_synced. by rewrite synced_by_recency_perm. Qed.

Lemma elem_of_synced_by_recency t r :
  r ∈ synced_by_recency t ↔ r ∈ rows t ∧ state r = SYNCED.
Proof.
  rewrite synced_by_recency_perm, list_elem_of_filter. unfold synced. tauto.
Qed.

Lemma synced_by_recency_ids_NoDup t : NoDup (record_id <$> synced_by_recency t).
Proof.
  rewrite synced_by_recency_perm.
  eapply sublist_NoDup; [apply rows_ids_NoDup|].
  apply fmap_sublist, sublist_filter.
Qed.

(** The ordered SYNCED rows are the retained ones, then the selected
    ones, then the ones past the cap of the statement. *)
Lemma synced_by_recency_split limit t :
  synced_by_recency t =
  retained limit t ++ select_expired limit t
    ++ drop 100 (drop (Z.to_nat limit) (synced_by_recency t)).
Proof.
  unfold retained, select_expired. fold (synced_by_recency t).
  by rewrite (take_drop 100), take_drop.
Qed.

Lemma select_expired_length limit t :
  length (select_expired limit t) = 100 `min` (count_synced t - Z.to_nat limit).
Proof.
  unfold select_expired. fold (synced_by_recency t).
  by rewrite length_take, length_drop, synced_by_recency_length.
Qed.

Lemma select_expired_subseteq limit t r :
  r ∈ select_expired limit t → r ∈ rows t ∧ state r = SYNCED.
Proof.
  intros Hr. apply elem_of_synced_by_recency.
  rewrite (synced_by_recency_split limit t). set_solver.
Qed.

Lemma select_expired_ids_NoDup limit t : NoDup (record_id <$> select_expired limit t).
Proof.
  pose proof (synced_by_recency_ids_NoDup t) as Hnd.
  rewrite (synced_by_recency_split limit t), !fmap_app in Hnd.
  apply NoDup_app in Hnd as (_ & _ & Hnd).
  by apply NoDup_app in Hnd as (Hnd & _ & _).
Qed.

(** No retained row is selected. *)
Lemma retained_not_selected limit t r :
  r ∈ retained limit t → record_id r ∉ record_id <$> select_expired limit t.
Proof.
  intros Hr Hin.
  pose proof (synced_by_recency_ids_NoDup t) as Hnd.
  rewrite (synced_by_recency_split limit t), !fmap_app in Hnd.
  apply NoDup_app in Hnd as (_ & Hdisj & _).
  apply (Hdisj (record_id r)).
  - by apply list_elem_of_fmap_2.
  - apply elem_of_app. by left.
Qed.

(** Every selected row was touched no later than every retained row. *)
Lemma selected_older_than_retained limit t r k :
  r ∈ select_expired limit t → k ∈ retained limit t → (timestamp r ≤ timestamp k)%Z.
Proof.
  intros Hr Hk.
  pose proof (synced_by_recency_sorted t) as Hs.
  rewrite (synced_by_recency_split limit t) in Hs.
  apply (StronglySorted_app_1_elem_of _ _ _ k r) in Hs; [done|done|].
  apply elem_of_app. by left.
Qed.

(** Up to a hundred rows past the limit, the statement selects all of
    them. *)
Lemma select_expired_all limit t :
  count_synced t ≤ Z.to_nat limit + 100 →
  select_expired limit t = drop (Z.to_nat limit) (synced_by_recency t).
Proof.
  intros Hle. unfold select_expired. fold (synced_by_recency t).
  apply take_ge. rewrite length_drop, synced_by_recency_length. lia.
Qed.

Lemma lookup_delete_rows (records : list AttachmentRecord) t (i : string) :
  delete_rows records t !! i =
  if decide (i ∈ record_id <$> records) then None else t !! i.
Proof.
  unfold delete_rows. revert t. induction records as [|r rs IH]; intros t.
  - destruct (decide _) as [Hin|]; [|done]. by apply elem_of_nil in Hin.
  - simpl. rewrite IH. unfold sql_delete.
    destruct (decide (i ∈ record_id <$> rs)) as [Hin|Hnin].
    + rewrite decide_True; [done|by apply list_elem_of_further].
    + destruct (decide (i = record_id r)) as [->|Hne].
      * rewrite lookup_delete_eq, decide_True; [done|apply list_elem_of_here].
      * rewrite lookup_delete_ne by done.
        rewrite decide_False; [done|]. rewrite elem_of_cons. tauto.
Qed.

Lemma delete_rows_subseteq (records : list AttachmentRecord) t :
  delete_rows records t ⊆ t.
Proof.
  apply map_subseteq_spec. intros i row. rewrite lookup_delete_rows.
  by destruct (decide _).
Qed.

Lemma delete_rows_size (records : list AttachmentRecord) t :
  size t ≤ size (delete_rows records t) + length records.
Proof.
  unfold delete_rows. revert t. induction records as [|r rs IH]; intros t; simpl.
  - lia.
  - specialize (IH (sql_delete (record_id r) t)).
    pose proof (map_size_delete (record_id r) t) as Hsz. unfold sql_delete in *.
    destruct (t !! record_id r); unfold id in Hsz; lia.
Qed.

Lemma rows_delete t (i : string) (row : Row) :
  t !! i = Some row → rows t ≡ₚ to_record i row :: rows (sql_delete i t).
Proof.
  intros Hrow. unfold rows, sql_delete.
  by rewrite <- (map_to_list_delete t i row Hrow).
Qed.

Lemma count_synced_delete t (i : string) :
  count_synced t ≤ count_synced (sql_delete i t) + 1.
Proof.
  unfold count_synced. destruct (t !! i) as [row|] eqn:Hrow.
  - rewrite (rows_delete t i row Hrow), filter_cons.
    destruct (decide _); simpl; lia.
  - unfold sql_delete. rewrite delete_id by done. lia.
Qed.

Lemma count_synced_delete_synced t r :
  r ∈ rows t → state r = SYNCED →
  count_synced t = S (count_synced (sql_delete (record_id r) t)).
Proof.
  intros Hr Hs. apply elem_of_rows in Hr as (row & Hrow & Hr).
  unfold count_synced.
  rewrite (rows_delete t _ row Hrow), <- Hr, filter_cons_True by done.
  reflexivity.
Qed.

Lemma count_synced_delete_rows (records : list AttachmentRecord) t :
  count_synced t ≤ count_synced (delete_rows records t) + length records.
Proof.
  unfold delete_rows. revert t. induction records as [|r rs IH]; intros t; simpl.
  - lia.
  - specialize (IH (sql_delete (record_id r) t)).
    pose proof (count_synced_delete t (record_id r)). lia.
Qed.

End EvictionQuery.

Section Eviction.
Context {W : Type} `{!Platform W}.
Implicit Types (q : Queue W) (r : AttachmentRecord) (limit : Z).

Lemma file_deletions_snoc (tr : list Event) (e : Event) :
  file_deletions (tr ++ [e]) =
  file_deletions tr ++ (if decide (is_file_deletion e) then [e] else []).
Proof. unfold file_deletions. by rewrite filter_app. Qed.

Lemma exact_count_after_delete_rows (records : list AttachmentRecord) (t : Table) :
  NoDup (record_id <$> records) →
  (∀ r, r ∈ records → r ∈ rows t ∧ state r = SYNCED) →
  count_synced t = count_synced (delete_rows records t) + length records.
Proof.
  unfold delete_rows. revert t.
  induction records as [|r rs IH]; intros t Hnd Hall; simpl; [lia|].
  apply NoDup_cons in Hnd as [Hr Hnd].
  destruct (Hall r) as [Hrow Hs]; [apply list_elem_of_here|].
  rewrite (count_synced_delete_synced t r Hrow Hs).
  rewrite (IH (sql_delete (record_id r) t)); [lia|done|].
  intros r' Hr'. destruct (Hall r') as [Hrow' Hs']; [by apply list_elem_of_further|].
  split; [|done].
  apply elem_of_rows in Hrow' as (row & Hlook & Heq).
  apply elem_of_rows. exists row. split; [|done].
  unfold sql_delete. rewrite lookup_delete_ne; [done|].
  intros Heq'. apply Hr. rewrite Heq'. by apply list_elem_of_fmap_2.
Qed.

(** One run of the deletions of a transaction. *)
Lemma delete_all_run (records : list AttachmentRecord) q o q1 :
  delete_all records q = (o, q1) →
  o ≠ OutOfModel ∧
  length (file_deletions (trace q1))
    ≤ length (file_deletions (trace q)) + length records ∧
  (o = Ok tt →
   db q1 = delete_rows records (db q) ∧
   file_deletions (trace q1) =
   file_deletions (trace q)
     ++ ((λ r, DeleteFile (filename r) (local_path r)) <$> records)).
Proof.
  revert q. induction records as [|r rs IH]; intros q; simpl.
  - intros [= <- <-]. split_and!; [done|lia|].
    intros _. by rewrite app_nil_r.
  - unfold bind at 1. unfold delete, bind at 1, execute, call. simpl.
    destruct (deleteFile (filename r) (local_path r) (world q)) as [[[]|e] w]; simpl.
    + intros Hrest. apply IH in Hrest as (Hdef & Hlen & Hok). simpl in *.
      rewrite !file_deletions_snoc in *. simpl in *.
      rewrite app_nil_r in *. rewrite length_app in Hlen. simpl in Hlen.
      split_and!; [done|lia|].
      intros Ho. destruct (Hok Ho) as [-> ->]. split; [done|].
      by rewrite <- app_assoc.
    + intros [= <- <-]. simpl. rewrite !file_deletions_snoc. simpl.
      rewrite app_nil_r, length_app. simpl. split_and!; [done|lia|done].
Qed.

Lemma expireCache_run q limit :
  cacheLimit (options q) = Some limit →
  expireCache q =
  if bool_decide (length (select_expired limit (db q)) = 0)
  then (Ok tt, log_event (SqlSelectExpired limit) q)
  else writeTransaction (delete_all (select_expired limit (db q)))
         (log_event (Console Debug) (log_event (SqlSelectExpired limit) q)).
Proof.
  intros Hlimit. unfold expireCache. rewrite Hlimit.
  unfold bind at 1, query. simpl. by case_bool_decide.
Qed.

(** What a transaction of deletions leaves behind, whatever its
    outcome. *)
Lemma expireCache_outcomes q limit o q' :
  cacheLimit (options q) = Some limit →
  expireCache q = (o, q') →
  length (file_deletions (trace q'))
    ≤ length (file_deletions (trace q)) + length (select_expired limit (db q)) ∧
  (o = Ok tt →
   db q' = delete_rows (select_expired limit (db q)) (db q) ∧
   file_deletions (trace q') =
   file_deletions (trace q)
     ++ ((λ r, DeleteFile (filename r) (local_path r)) <$> select_expired limit (db q))) ∧
  (o ≠ Ok tt → db q' = db q).
Proof.
  intros Hlimit. rewrite (expireCache_run q limit Hlimit).
  case_bool_decide as Hlen.
  - intros [= <- <-]. simpl. rewrite file_deletions_snoc. simpl.
    rewrite app_nil_r. apply length_zero_iff_nil in Hlen. rewrite Hlen.
    split_and!; [simpl; lia| |done].
    intros _. simpl. by rewrite app_nil_r.
  - unfold writeTransaction.
    destruct (delete_all _ _) as [[[]|e|] q1] eqn:Hrun;
      apply delete_all_run in Hrun as (Hdef & Hcount & Hok); simpl in *;
      rewrite !file_deletions_snoc in *; simpl in *; rewrite ?app_nil_r in *;
      intros [= <- <-]; simpl; rewrite !file_deletions_snoc; simpl;
      rewrite ?app_nil_r.
    + destruct (Hok eq_refl) as [Hdb Htr]. split_and!; [lia|done|done].
    + split_and!; [lia|done|done].
    + done.
Qed.

(** C2, as the code has it: a pass of [expireCache] that returns
    deletes exactly the rows its statement selects, and their files:
    the SYNCED rows at places [cacheLimit + 1] to [cacheLimit + 100] in
    the order of descending timestamps.  The [cacheLimit] most recent
    rows stay, and no deleted row was touched later than one of them.
    When at most a hundred SYNCED rows lie past the limit these are all
    of them, so that with 150 SYNCED rows and a limit of 100 the pass
    deletes exactly the 50 oldest. *)
Theorem expireCache_deletes_selected q limit q' :
  cacheLimit (options q) = Some limit →
  expireCache q = (Ok tt, q') →
  let sel := select_expired limit (db q) in
  (∀ i, db q' !! i = if decide (i ∈ record_id <$> sel) then None else db q !! i) ∧
  file_deletions (trace q') =
    file_deletions (trace q) ++ ((λ r, DeleteFile (filename r) (local_path r)) <$> sel) ∧
  sel = take 100 (drop (Z.to_nat limit) (synced_by_recency (db q))) ∧
  (∀ r, r ∈ sel → r ∈ rows (db q) ∧ state r = SYNCED) ∧
  length sel = 100 `min` (count_synced (db q) - Z.to_nat limit) ∧
  count_synced (db q') = count_synced (db q) - length sel ∧
  (∀ r k, r ∈ sel → k ∈ retained limit (db q) → (timestamp r ≤ timestamp k)%Z) ∧
  (∀ k, k ∈ retained limit (db q) → k ∈ rows (db q')) ∧
  (count_synced (db q) ≤ Z.to_nat limit + 100 →
   synced_by_recency (db q) = retained limit (db q) ++ sel ∧
   count_synced (db q') = count_synced (db q) `min` Z.to_nat limit) ∧
  (limit = 100%Z → count_synced (db q) = 150 →
   length sel = 50 ∧ count_synced (db q') = 100).
Proof.
  intros Hlimit Hrun sel.
  destruct (expireCache_outcomes q limit _ _ Hlimit Hrun) as (_ & Hok & _).
  destruct (Hok eq_refl) as [Hdb Htr]. fold sel in Hdb, Htr.
  assert (Hlen : length sel = 100 `min` (count_synced (db q) - Z.to_nat limit))
    by apply select_expired_length.
  assert (Hcount : count_synced (db q') = count_synced (db q) - length sel).
  { rewrite Hdb.
    rewrite (exact_count_after_delete_rows sel (db q)); [lia| |].
    - apply select_expired_ids_NoDup.
    - apply select_expired_subseteq. }
  split_and!.
  - intros i. rewrite Hdb. apply lookup_delete_rows.
  - exact Htr.
  - reflexivity.
  - apply select_expired_subseteq.
  - exact Hlen.
  - exact Hcount.
  - intros r k. apply selected_older_than_retained.
  - intros k Hk.
    assert (Hin : k ∈ rows (db q)).
    { apply (elem_of_synced_by_recency (db q) k).
      rewrite (synced_by_recency_split limit (db q)). apply elem_of_app. by left. }
    apply elem_of_rows in Hin as (row & Hrow & Heq).
    apply elem_of_rows. exists row. split; [|done].
    rewrite Hdb, lookup_delete_rows.
    rewrite decide_False; [done|]. by apply retained_not_selected.
  - intros Hfew. split.
    + rewrite (synced_by_recency_split limit (db q)) at 1.
      fold sel. rewrite drop_ge, app_nil_r; [done|].
      rewrite length_drop, synced_by_recency_length. lia.
    + lia.
  - intros -> H150. rewrite H150 in *. simpl in *. lia.
Qed.

(** C10: one pass of [expireCache] deletes at most a hundred rows and
    at most a hundred files, however many SYNCED rows lie past the
    limit; with more than [cacheLimit + 100] SYNCED rows, more than
    [cacheLimit] of them are still there after the pass. *)
Theorem expireCache_capped q :
  let q' := (expireCache q).2 in
  db q' ⊆ db q ∧
  size (db q) ≤ size (db q') + 100 ∧
  length (file_deletions (trace q')) ≤ length (file_deletions (trace q)) + 100 ∧
  (∀ limit, cacheLimit (options q) = Some limit →
     (limit + 100 < Z.of_nat (count_synced (db q)))%Z →
     (limit < Z.of_nat (count_synced (db q')))%Z ∧
     count_synced (db q) ≤ count_synced (db q') + 100).
Proof.
  destruct (expireCache q) as [o q'] eqn:Hrun. simpl.
  destruct (cacheLimit (options q)) as [limit|] eqn:Hlimit.
  - destruct (expireCache_outcomes q limit _ _ Hlimit Hrun) as (Hfiles & Hok & Hother).
    pose proof (select_expired_length limit (db q)) as Hlen.
    assert (Hdb : db q' = delete_rows (select_expired limit (db q)) (db q) ∨ db q' = db q).
    { destruct o as [[]| |]; [left; by apply Hok|right; by apply Hother..]. }
    split_and!.
    + destruct Hdb as [-> | ->]; [apply delete_rows_subseteq|done].
    + destruct Hdb as [-> | ->]; [|lia].
      pose proof (delete_rows_size (select_expired limit (db q)) (db q)). lia.
    + lia.
    + intros limit' [= <-] Hmany.
      assert (count_synced (db q) ≤ count_synced (db q') + 100); [|lia].
      destruct Hdb as [-> | ->]; [|lia].
      pose proof (count_synced_delete_rows (select_expired limit (db q)) (db q)). lia.
  - unfold expireCache in Hrun. rewrite Hlimit in Hrun.
    injection Hrun as <- <-. split_and!; [done|lia|lia|].
    intros limit Hl. discriminate.
Qed.

End Eviction.

(** ** The upload loop ends within its fuel *)

Section UploadTermination.
Context {W : Type} `{!Platform W}.
Implicit Types (q : Queue W) (r : AttachmentRecord).

#[local] Arguments or_null : simpl never.
#[local] Arguments upload_loop : simpl never.

Lemma uploadAttachment_defined r : defined (uploadAttachment r).
Proof.
  unfold uploadAttachment. destruct (or_null (local_uri r)); [|apply defined_throw].
  apply defined_try_catch; [comp|]. intros e. destruct (is_duplicate e); comp.
Qed.

(** An upload that answers true has written the record back as SYNCED. *)
Lemma uploadAttachment_true r q q1 :
  uploadAttachment r q = (Ok true, q1) →
  ∃ t, db q1 = sql_update t (with_state SYNCED r) (db q).
Proof.
  unfold uploadAttachment. destruct (or_null (local_uri r)) as [uri|]; [|discriminate].
  run.
  destruct (readFile uri (media_type r) (world q)) as [[buf|e1] w1]; simpl.
  - destruct (uploadFile (filename r) buf (or_null (media_type r)) w1)
      as [[[]|e2] w2]; simpl.
    + destruct (getTime w2) as [t w3]. simpl. intros [= <-]. by exists t.
    + destruct (is_duplicate e2); simpl; [destruct (getTime w2)|]; simpl; discriminate.
  - destruct (is_duplicate e1); simpl; [destruct (getTime w1)|]; simpl; discriminate.
Qed.

Lemma rows_length (t : Table) : length (rows t) = size t.
Proof. unfold rows. by rewrite length_fmap, length_map_to_list. Qed.

Lemma select_upload_length (t : Table) :
  length (select_upload t) = length (filter upload_eligible (rows t)).
Proof. unfold select_upload, order_by_timestamp_asc. by rewrite merge_sort_Permutation. Qed.

(** Writing a candidate back as SYNCED takes it out of the candidates. *)
Lemma select_upload_after_sync (now : Z) r (t : Table) :
  r ∈ select_upload t →
  S (length (select_upload (sql_update now (with_state SYNCED r) t)))
  = length (select_upload t).
Proof.
  intros Hr. apply elem_of_select_upload in Hr as [Hel Hr].
  apply elem_of_rows in Hr as (row & Hrow & Heq).
  rewrite !select_upload_length.
  rewrite (rows_delete t _ row Hrow), <- Heq, filter_cons_True by done.
  simpl. f_equal.
  set (row' := {| row_timestamp := now;
                  row_filename := filename r;
                  row_local_uri := or_null (local_uri r);
                  row_media_type := media_type r;
                  row_size := record_size r;
                  row_state := SYNCED |}).
  assert (Hupd : sql_update now (with_state SYNCED r) t = <[record_id r := row']> t).
  { unfold sql_update. simpl. apply map_eq. intros i.
    destruct (decide (i = record_id r)) as [->|Hne].
    - by rewrite lookup_alter_eq, lookup_insert_eq, Hrow.
    - by rewrite lookup_alter_ne, lookup_insert_ne. }
  rewrite Hupd.
  rewrite (rows_delete (<[record_id r := row']> t) (record_id r) row')
    by apply lookup_insert_eq.
  unfold sql_delete. rewrite delete_insert_eq.
  rewrite filter_cons_False; [done|].
  unfold upload_eligible. simpl. intros [_ [?|?]]; discriminate.
Qed.

Lemma upload_loop_fuel fuel r q o q' :
  r ∈ select_upload (db q) →
  length (select_upload (db q)) ≤ fuel →
  upload_loop fuel r q = (o, q') →
  o ≠ OutOfModel.
Proof.
  revert r q. induction fuel as [|fuel IH]; intros r q Hr Hlen.
  - destruct (select_upload (db q)); [by apply elem_of_nil in Hr|simpl in Hlen; lia].
  - unfold upload_loop; fold upload_loop. unfold bind at 1.
    destruct (uploadAttachment r q) as [[[]|e|] q1] eqn:Hup.
    + destruct (uploadAttachment_true _ _ _ Hup) as [t Hdb].
      pose proof (select_upload_after_sync t r (db q) Hr) as Hless.
      unfold bind, getNextUploadRecord, query. simpl.
      destruct (head (select_upload (db q1))) as [r'|] eqn:Hhead.
      * apply IH.
        -- simpl. apply head_Some_elem_of, Hhead.
        -- simpl. rewrite Hdb. lia.
      * unfold ret. by intros [= <- <-].
    + unfold ret. by intros [= <- <-].
    + by intros [= <- <-].
    + exfalso. eapply uploadAttachment_defined, Hup.
Qed.

(** A pass of the upload worker stays within the model. *)
Lemma uploadRecords_defined : defined (uploadRecords (W := W)).
Proof.
  intros q q'. unfold uploadRecords, uploadRecords_fuel.
  destruct (uploading q); [congruence|].
  unfold finally, try_catch, bind at 1, getNextUploadRecord, query. simpl.
  destruct (head (select_upload (db q))) as [r|] eqn:Hhead; [|unfold ret; congruence].
  unfold bind at 1, emit at 1. unfold bind at 1.
  destruct (upload_loop (S (size (db q))) r _) as [[[]|e|] q1] eqn:Hloop;
    unfold emit; try congruence.
  exfalso. eapply upload_loop_fuel; [| |exact Hloop|reflexivity].
  - simpl. apply head_Some_elem_of, Hhead.
  - simpl. rewrite select_upload_length.
    pose proof (length_filter upload_eligible (rows (db q))).
    rewrite rows_length in *. lia.
Qed.


End UploadTermination.

(** ** Runs on the in-memory platform *)

Lemma run_ok {W A : Type} (m : M W A) (q : Queue W) (a : A) :
  (m q).1 = Ok a → m q = (Ok a, (m q).2).
Proof. destruct (m q) as [o q']. simpl. by intros ->. Qed.

(** C1 fails as stated: reconciling the ids x and y over a table that
    holds only x returns, and y has no row afterwards. *)
Lemma reconciliation_does_not_insert :
  (init Scenario.reconcile_xy).1 = Ok tt ∧
  queued_for_sync (db (init Scenario.reconcile_xy).2) "x" ∧
  db (init Scenario.reconcile_xy).2 !! "y" = None ∧
  ¬ (∀ i, i ∈ ["x"; "y"] → queued_for_sync (db (init Scenario.reconcile_xy).2) i).
Proof.
  assert (Hy : db (init Scenario.reconcile_xy).2 !! "y" = None)
    by (vm_compute; reflexivity).
  split_and!.
  - vm_compute. reflexivity.
  - eexists. split; [vm_compute; reflexivity|reflexivity].
  - exact Hy.
  - intros Hall. destruct (Hall "y") as (row & Hrow & _).
    + apply list_elem_of_further, list_elem_of_here.
    + rewrite Hy in Hrow. discriminate.
Qed.

Lemma reconciliation_marks_known_ids_witness :
  ∃ q', init Scenario.reconcile_xy = (Ok tt, q') ∧
        db q' !! "x" = row_with_state QUEUED_SYNC <$> db Scenario.reconcile_xy !! "x" ∧
        dom (db q') = dom (db Scenario.reconcile_xy).
Proof.
  destruct (reconciliation_marks_known_ids Scenario.reconcile_xy Scenario.hook_xy
              Scenario.world ["x"; "y"] Scenario.world)
    as (q' & Hrun & Hin & _ & Hdom); [reflexivity..|].
  exists q'. split_and!; [exact Hrun| |exact Hdom].
  apply Hin, list_elem_of_here.
Defined.

(** C3 on a queue configured with a sync interval of 5000 ms, and on
    one configured with the interval 0: the constructor stores the
    interval, and the one timer [init] registers has a delay of 60000 ms. *)
Theorem init_timer_ignores_syncInterval :
  syncInterval (options Scenario.five_seconds) = Some 5000%Z ∧
  (init Scenario.five_seconds).1 = Ok tt ∧
  timers (trace (init Scenario.five_seconds).2) = [60000%Z] ∧
  syncInterval (options Scenario.interval_zero) = Some 0%Z ∧
  (init Scenario.interval_zero).1 = Ok tt ∧
  timers (trace (init Scenario.interval_zero).2) = [60000%Z].
Proof. split_and!; vm_compute; reflexivity. Qed.



Lemma upload_failure_aborts_pass_witness :
  ∃ q1, uploadAttachment Scenario.rec_a Scenario.offline_ab = (Ok false, q1) ∧
        upload_loop 1 Scenario.rec_a Scenario.offline_ab = (Ok tt, q1) ∧
        db q1 = db Scenario.offline_ab.
Proof.
  destruct (upload_failure_aborts_pass 0 Scenario.rec_a Scenario.offline_ab
              "/doc/attachments/a.jpg" "AAAA"
              (world Scenario.offline_ab) (world Scenario.offline_ab)
              Sim.network_error)
    as (q1 & Hup & Hloop & Hdb & _); [reflexivity..|].
  exists q1. split_and!; assumption.
Defined.

(** C9 fails as stated: a record whose local_uri is the empty string,
    which is not null, makes [uploadAttachment] raise. *)
Lemma uploadAttachment_raises_on_empty_uri :
  local_uri Scenario.rec_empty_uri ≠ None ∧
  uploadAttachment Scenario.rec_empty_uri Scenario.empty_queue
  = (Throw (NoLocalUri Scenario.rec_empty_uri), Scenario.empty_queue).
Proof. split; [discriminate|reflexivity]. Qed.

Lemma uploadAttachment_raises_iff_no_local_uri_witness :
  uploadAttachment Scenario.rec_no_uri Scenario.offline_ab
  = (Throw (NoLocalUri Scenario.rec_no_uri), Scenario.offline_ab).
Proof.
  destruct (uploadAttachment_raises_iff_no_local_uri Scenario.rec_no_uri Scenario.offline_ab)
    as (_ & Hraise & _).
  apply Hraise. reflexivity.
Defined.


Lemma downloadRecord_present_file_witness :
  ∃ q1 q2, downloadRecord Scenario.rec_c Scenario.present_c = (Ok true, q1) ∧
           downloadRecord Scenario.rec_c q1 = (Ok true, q2) ∧
           row_state <$> db q2 !! "c" = Some SYNCED ∧
           DownloadFile "c.jpg" ∉ trace q2.
Proof.
  pose (w := world Scenario.present_c).
  destruct (downloadRecord_present_file Scenario.rec_c Scenario.present_c
              w 1000%Z (Sim.mkWorld (Sim.files w) (Sim.remote w) true 1001)
              (Sim.mkWorld (Sim.files w) (Sim.remote w) true 1001) 1001%Z
              (Sim.mkWorld (Sim.files w) (Sim.remote w) true 1002))
    as (q1 & q2 & H1 & _ & H2 & _ & _ & _ & _ & Hfetch & Hstate); [reflexivity..|].
  exists q1, q2. split_and!; [exact H1|exact H2| |].
  - apply Hstate. by eexists.
  - intros Hin. apply Hfetch in Hin. by apply elem_of_nil in Hin.
Defined.

(** C2 fails as stated: with 201 SYNCED rows and the limit 100 a pass
    deletes 100 rows, not 101, and the row left past the limit is the
    oldest of all. *)
Lemma expireCache_leaves_oldest_row :
  let q' := (expireCache Scenario.synced_201).2 in
  cacheLimit (options Scenario.synced_201) = Some 100%Z ∧
  count_synced (db Scenario.synced_201) = 201 ∧
  (expireCache Scenario.synced_201).1 = Ok tt ∧
  count_synced (db q') = 101 ∧
  row_timestamp <$> db q' !! Scenario.synced_id 1 = Some 1%Z ∧
  db q' !! Scenario.synced_id 2 = None.
Proof. split_and!; vm_compute; reflexivity. Qed.

Lemma expireCache_deletes_selected_witness :
  length (select_expired 100 (db Scenario.synced_150)) = 50 ∧
  count_synced (db (expireCache Scenario.synced_150).2) = 100.
Proof.
  destruct (expireCache_deletes_selected Scenario.synced_150 100
              (expireCache Scenario.synced_150).2)
    as (_ & _ & _ & _ & _ & _ & _ & _ & _ & Hscenario).
  - reflexivity.
  - apply run_ok. vm_compute. reflexivity.
  - apply Hscenario; [reflexivity|vm_compute; reflexivity].
Defined.

Lemma expireCache_capped_witness :
  (100 < Z.of_nat (count_synced (db (expireCache Scenario.synced_201).2)))%Z ∧
  count_synced (db Scenario.synced_201)
    ≤ count_synced (db (expireCache Scenario.synced_201).2) + 100.
Proof.
  destruct (expireCache_capped Scenario.synced_201) as (_ & _ & _ & Hmany).
  apply Hmany; [reflexivity|vm_compute; reflexivity].
Defined.

(** * The rest of the queue *)

(** ** What computations keep *)

Section Keeping.
Context {W : Type} `{!Platform W}.
Implicit Types (q : Queue W) (r : AttachmentRecord) (P : Table → Prop).

Lemma keeps_ret {A : Type} P (a : A) : keeps (W := W) P (ret a).
Proof. by intros q. Qed.

Lemma keeps_throw {A : Type} P (e : Thrown) : keeps (W := W) (A := A) P (throw e).
Proof. by intros q. Qed.

Lemma keeps_out_of_model {A : Type} P : keeps (W := W) (A := A) P out_of_model.
Proof. by intros q. Qed.

Lemma keeps_emit P (ev : Event) : keeps (W := W) P (emit ev).
Proof. by intros q. Qed.

Lemma keeps_call {A : Type} P (ev : Event) (op : W → Reply A * W) : keeps P (call ev op).
Proof. intros q HP. unfold call. by destruct (op (world q)). Qed.

Lemma keeps_query {A : Type} P (ev : Event) (sel : Table → A) :
  keeps (W := W) P (query ev sel).
Proof. by intros q. Qed.

Lemma keeps_execute P (ev : Event) (upd : Table → Table) :
  (∀ t, P t → P (upd t)) → keeps (W := W) P (execute ev upd).
Proof. intros Hupd q HP. simpl. by apply Hupd. Qed.

Lemma keeps_bind {A B : Type} P (m : M W A) (k : A → M W B) :
  keeps P m → (∀ a, keeps P (k a)) → keeps P (bind m k).
Proof.
  intros Hm Hk q HP. unfold bind. specialize (Hm q HP).
  destruct (m q) as [[a|e|] q1]; simpl in *; [by apply Hk|done..].
Qed.

Lemma keeps_try_catch {A : Type} P (m : M W A) (h : Thrown → M W A) :
  keeps P m → (∀ e, keeps P (h e)) → keeps P (try_catch m h).
Proof.
  intros Hm Hh q HP. unfold try_catch. specialize (Hm q HP).
  destruct (m q) as [[a|e|] q1]; simpl in *; [done|by apply Hh|done].
Qed.

Lemma keeps_writeTransaction {A : Type} P (body : M W A) :
  keeps P body → keeps P (writeTransaction body).
Proof.
  intros Hb q HP. unfold writeTransaction.
  specialize (Hb (log_event BeginTransaction q) HP).
  destruct (body _) as [[a|e|] q1]; simpl in *; done.
Qed.

Lemma keeps_update P r :
  (∀ t now, P t → P (sql_update now r t)) → keeps P (update r).
Proof.
  intros Hupd q HP. unfold update, bind, now, execute.
  destruct (getTime (world q)) as [t w]. simpl. by apply Hupd.
Qed.

End Keeping.

Ltac keep :=
  repeat first
    [ apply keeps_ret | apply keeps_throw | apply keeps_out_of_model
    | apply keeps_emit | apply keeps_call | apply keeps_query
    | apply keeps_bind; [|intros ?]
    | apply keeps_try_catch; [|intros ?] ].

(** ** The record store *)

Section RecordStoreProperties.
Context {W : Type} `{!Platform W} `{!Device W}.
Implicit Types (q : Queue W) (r : AttachmentRecord) (d : Draft).


Lemma or_null_not_empty (s : option string) : or_null s ≠ Some EmptyString.
Proof. by destruct s as [[|c s]|]. Qed.

Lemma size_or_null_id (s : option Z) : s ≠ Some 0%Z → size_or_null s = s.
Proof. destruct s as [[| |]|]; by intros. Qed.

Lemma saveToQueue_run d q :
  saveToQueue d q =
  (Ok (stamp (getTime (world q)).1 d),
   set_db (sql_insert_or_replace (stamp (getTime (world q)).1 d) (db q))
          (set_world (getTime (world q)).2 q)).
Proof.
  unfold saveToQueue, bind, now, unlogged_execute, ret.
  by destruct (getTime (world q)) as [t w].
Qed.


Lemma update_run r q :
  update r q =
  (Ok tt,
   set_db (sql_update (getTime (world q)).1 r (db q))
     (log_event (SqlUpdate r (getTime (world q)).1)
        (set_world (getTime (world q)).2 q))).
Proof.
  unfold update, bind, now, execute. by destruct (getTime (world q)) as [t w].
Qed.

Lemma sql_update_dom (t : Z) r (tbl : Table) : dom (sql_update t r tbl) = dom tbl.
Proof.
  apply set_eq. intros i. rewrite !elem_of_dom. unfold sql_update.
  destruct (decide (i = record_id r)) as [->|Hne].
  - rewrite lookup_alter_eq. by rewrite fmap_is_Some.
  - by rewrite lookup_alter_ne.
Qed.

(** X2: [update] changes the row its record names and nothing else: without
    such a row the table stays as it is, nothing being inserted.  With
    one, what is read back is the record as given, with the time of the
    call as its timestamp and an empty local_uri turned into null;
    media_type and size are stored as they come. *)
Theorem update_never_inserts r q :
  let q' := (update r q).2 in
  (update r q).1 = Ok tt ∧
  dom (db q') = dom (db q) ∧
  (db q !! record_id r = None → db q' = db q) ∧
  (∀ i, i ≠ record_id r → db q' !! i = db q !! i) ∧
  (is_Some (db q !! record_id r) →
   (getAttachmentRecord (record_id r) q').1 =
   Ok (Some {| record_id := record_id r;
               filename := filename r;
               local_uri := or_null (local_uri r);
               media_type := media_type r;
               record_size := record_size r;
               state := state r;
               timestamp := (getTime (world q)).1 |})).
Proof.
  intros q'. unfold q'. rewrite update_run. simpl. split_and!.
  - reflexivity.
  - apply sql_update_dom.
  - intros Hnone. unfold sql_update. apply map_eq. intros i.
    destruct (decide (i = record_id r)) as [->|Hne].
    + by rewrite lookup_alter_eq, Hnone.
    + by rewrite lookup_alter_ne.
  - intros i Hi. by apply sql_update_other.
  - intros [row Hrow]. unfold sql_update. by rewrite lookup_alter_eq, Hrow.
Qed.

End RecordStoreProperties.


Lemma update_never_inserts_witness :
  db (update Scenario.rec_c Scenario.empty_queue).2 = db Scenario.empty_queue ∧
  (getAttachmentRecord "c" (update Scenario.rec_c Scenario.offline_cd).2).1
  = Ok (Some (mkRecord "c" "c.jpg" None (Some "image/jpeg") None QUEUED_DOWNLOAD 1000)).
Proof.
  split.
  - apply (update_never_inserts Scenario.rec_c Scenario.empty_queue). reflexivity.
  - destruct (update_never_inserts Scenario.rec_c Scenario.offline_cd)
      as (_ & _ & _ & _ & Hread).
    apply Hread. by eexists.
Defined.

(** ** What a step of a worker does to the table *)

Section Steps.
Context {W : Type} `{!Platform W}.
Implicit Types (q : Queue W) (r : AttachmentRecord) (P : AttachmentRecord → Prop).

#[local] Arguments or_null : simpl never.
#[local] Arguments upload_loop : simpl never.

(** [uploadAttachment] leaves the table alone or writes its record
    back as SYNCED. *)
Lemma uploadAttachment_effect r q :
  db (uploadAttachment r q).2 = db q ∨
  ∃ t, db (uploadAttachment r q).2 = sql_update t (with_state SYNCED r) (db q).
Proof.
  unfold uploadAttachment. destruct (or_null (local_uri r)) as [uri|]; [|by left].
  run.
  destruct (readFile uri (media_type r) (world q)) as [[buf|e1] w1]; simpl.
  - destruct (uploadFile (filename r) buf (or_null (media_type r)) w1)
      as [[[]|e2] w2]; simpl.
    + destruct (getTime w2) as [t w3]. simpl. right. by exists t.
    + destruct (is_duplicate e2); simpl; [|by left].
      destruct (getTime w2) as [t w3]. simpl. right. by exists t.
  - destruct (is_duplicate e1); simpl; [|by left].
    destruct (getTime w1) as [t w2]. simpl. right. by exists t.
Qed.

(** [downloadRecord] leaves the table alone or writes its record back
    as SYNCED, with the local path it has settled on. *)
Lemma downloadRecord_effect r q :
  db (downloadRecord r q).2 = db q ∨
  ∃ t r', record_id r' = record_id r ∧ state r' = SYNCED ∧
          local_uri r' = Some (local_path r) ∧
          db (downloadRecord r q).2 = sql_update t r' (db q).
Proof.
  destruct (downloadRecord r q) as [o q'] eqn:Hrun. simpl. revert Hrun.
  unfold downloadRecord, bind at 1, call at 1.
  destruct (fileExists (local_path r) (world q)) as [[[]|e] w]; simpl.
  - run. destruct (getTime w) as [t w']. simpl. intros [= <- <-]. right.
    exists t, (with_state SYNCED (ensure_local_uri r)). split_and!; [|done| |done].
    + apply record_id_ensure.
    + apply ensure_local_uri_path.
  - unfold try_catch, download_attempt. run.
    destruct (downloadFile _ w) as [[b|e1] w1]; simpl; [|intros [= <- <-]; by left].
    destruct (readAsBase64 b w1) as [[d|e2] w2]; simpl; [|intros [= <- <-]; by left].
    destruct (makeDir _ w2) as [[[]|e3] w3]; simpl; [|intros [= <- <-]; by left].
    destruct (writeFile _ d w3) as [[[]|e4] w4]; simpl; [|intros [= <- <-]; by left].
    destruct (getTime w4) as [t w5]. simpl. intros [= <- <-]. right.
    exists t, (with_state SYNCED (with_media_type (Some (blob_type b)) (ensure_local_uri r))).
    split_and!; [|done| |done].
    + apply record_id_ensure.
    + apply ensure_local_uri_path.
  - intros [= <- <-]. by left.
Qed.

Lemma same_or_synced_refl P (t : Table) : same_or_synced P t t.
Proof. split; [done|]. intros i. by left. Qed.

(** Writing a row back as SYNCED keeps [same_or_synced] when the row
    satisfied [P] to begin with. *)
Lemma same_or_synced_update P (t0 t : Table) (now : Z) r :
  same_or_synced P t0 t →
  state r = SYNCED →
  (∃ row0, t0 !! record_id r = Some row0 ∧ P (to_record (record_id r) row0)) →
  same_or_synced P t0 (sql_update now r t).
Proof.
  intros [Hdom Hrows] Hs (row0 & Hrow0 & HP). split.
  - by rewrite sql_update_dom.
  - intros i. destruct (decide (i = record_id r)) as [->|Hne].
    + right. exists row0. split_and!; [done..|].
      rewrite <- Hs. apply sql_update_state.
      apply elem_of_dom. rewrite Hdom. apply elem_of_dom. by eexists.
    + rewrite sql_update_other by done. apply Hrows.
Qed.

(** The row of an upload candidate was one in the table the pass
    started from. *)
Lemma candidate_from_start (t0 t : Table) r :
  same_or_synced upload_eligible t0 t →
  r ∈ select_upload t →
  ∃ row0, t0 !! record_id r = Some row0 ∧ upload_eligible (to_record (record_id r) row0).
Proof.
  intros [_ Hrows] Hr. apply elem_of_select_upload in Hr as [Hel Hr].
  apply elem_of_rows in Hr as (row & Hrow & Heq).
  destruct (Hrows (record_id r)) as [Hsame|(row0 & _ & _ & Hsynced)].
  - exists row. rewrite <- Hsame, <- Heq. done.
  - rewrite Hrow in Hsynced. simpl in Hsynced.
    destruct Hel as [_ [Hst|Hst]]; rewrite Heq in Hst; simpl in Hst; congruence.
Qed.

Lemma upload_loop_frame (t0 : Table) fuel r q :
  same_or_synced upload_eligible t0 (db q) →
  r ∈ select_upload (db q) →
  same_or_synced upload_eligible t0 (db (upload_loop fuel r q).2).
Proof.
  revert r q. induction fuel as [|fuel IH]; intros r q Hsame Hr; [done|].
  unfold upload_loop; fold (upload_loop (W := W)). unfold bind at 1.
  assert (Hq1 : same_or_synced upload_eligible t0 (db (uploadAttachment r q).2)).
  { destruct (uploadAttachment_effect r q) as [->|[t ->]]; [done|].
    apply (same_or_synced_update _ _ _ t (with_state SYNCED r) Hsame eq_refl).
    simpl. by apply (candidate_from_start t0 (db q)). }
  destruct (uploadAttachment r q) as [[[]|e|] q1]; simpl in *; try done.
  unfold bind, getNextUploadRecord, query. simpl.
  destruct (head (select_upload (db q1))) as [r'|] eqn:Hhead; [|done].
  apply IH; simpl; [done|]. by apply head_Some_elem_of.
Qed.

Lemma uploadRecords_frame q :
  same_or_synced upload_eligible (db q) (db (uploadRecords q).2).
Proof.
  unfold uploadRecords, uploadRecords_fuel.
  destruct (uploading q); [apply same_or_synced_refl|].
  unfold finally, try_catch, bind at 1, getNextUploadRecord, query. simpl.
  destruct (head (select_upload (db q))) as [r|] eqn:Hhead;
    [|apply same_or_synced_refl].
  unfold bind at 1, emit at 1. unfold bind at 1.
  pose proof (upload_loop_frame (db q) (S (size (db q))) r
                (log_event (Console Debug)
                   (log_event SqlSelectUpload (set_uploading true q)))
                (same_or_synced_refl _ _)) as Hloop.
  simpl in Hloop. specialize (Hloop (head_Some_elem_of _ _ Hhead)).
  destruct (upload_loop _ _ _) as [[[]|e|] q1]; simpl in *; done.
Qed.

Lemma download_loop_frame (t0 : Table) (records : list AttachmentRecord) q :
  same_or_synced download_eligible t0 (db q) →
  (∀ r, r ∈ records → r ∈ select_download t0) →
  same_or_synced download_eligible t0 (db (download_loop records q).2).
Proof.
  revert q. induction records as [|r rest IH]; intros q Hsame Hall; [done|].
  simpl. unfold bind at 1.
  assert (Hq1 : same_or_synced download_eligible t0 (db (downloadRecord r q).2)).
  { destruct (downloadRecord_effect r q) as [->|(t & r' & Hid & Hs & _ & ->)]; [done|].
    apply (same_or_synced_update _ _ _ _ _ Hsame Hs). rewrite Hid.
    assert (Hin : r ∈ select_download t0) by apply Hall, list_elem_of_here.
    apply elem_of_select_download in Hin as [Hel Hr].
    apply elem_of_rows in Hr as (row & Hrow & Heq).
    exists row. by rewrite <- Heq. }
  destruct (downloadRecord r q) as [[b|e|] q1]; simpl in *; try done.
  apply IH; [done|]. intros r' Hr'. by apply Hall, list_elem_of_further.
Qed.

Lemma downloadRecords_frame q :
  same_or_synced download_eligible (db q) (db (downloadRecords q).2).
Proof.
  unfold downloadRecords.
  destruct (downloading q); [apply same_or_synced_refl|].
  unfold finally, try_catch, bind at 1, getNextDownloadRecords, query. simpl.
  case_bool_decide; [apply same_or_synced_refl|].
  unfold bind at 1, emit at 1. unfold bind at 1.
  pose proof (download_loop_frame (db q) (select_download (db q))
                (log_event (Console Debug)
                   (log_event SqlSelectDownload (set_downloading true q)))
                (same_or_synced_refl _ _) (λ _ H, H)) as Hloop.
  destruct (download_loop _ _) as [[[]|e|] q1]; simpl in *; done.
Qed.

End Steps.

(** ** The passes as a whole *)

Section Passes.
Context {W : Type} `{!Platform W}.
Implicit Types (q : Queue W) (r : AttachmentRecord).

#[local] Arguments upload_loop : simpl never.

Lemma uploadRecords_safe : safe (uploadRecords (W := W)).
Proof.
  intros q e q'. unfold uploadRecords, uploadRecords_fuel.
  destruct (uploading q); [congruence|]. unfold finally.
  destruct (try_catch _ _ _) as [o q1] eqn:Htry. intros [= -> <-].
  revert Htry. apply safe_try_catch. intros e'. apply safe_emit.
Qed.

Lemma downloadRecord_defined r : defined (downloadRecord r).
Proof.
  unfold downloadRecord. apply defined_bind; [comp|].
  intros []; [comp|]. apply defined_try_catch; [apply download_attempt_defined|].
  intros e. comp.
Qed.

Lemma download_loop_defined (records : list AttachmentRecord) :
  defined (download_loop (W := W) records).
Proof.
  induction records as [|r rest IH]; simpl; [comp|].
  apply defined_bind; [apply downloadRecord_defined|]. by intros _.
Qed.

Lemma downloadRecords_defined : defined (downloadRecords (W := W)).
Proof.
  intros q q'. unfold downloadRecords.
  destruct (downloading q); [congruence|]. unfold finally.
  destruct (try_catch _ _ _) as [o q1] eqn:Htry. intros [= -> <-].
  revert Htry. apply defined_try_catch; [|intros e; comp].
  apply defined_bind; [intros ? ?; unfold getNextDownloadRecords, query; congruence|].
  intros records. case_bool_decide; [comp|].
  apply defined_bind; [comp|]. intros _.
  apply defined_bind; [apply download_loop_defined|]. intros _. comp.
Qed.

Lemma downloadRecords_safe : safe (downloadRecords (W := W)).
Proof.
  intros q e q'. unfold downloadRecords.
  destruct (downloading q); [congruence|]. unfold finally.
  destruct (try_catch _ _ _) as [o q1] eqn:Htry. intros [= -> <-].
  revert Htry. apply safe_try_catch. intros e'. apply safe_emit.
Qed.

Lemma returns_unit (m : M W unit) q : safe m → defined m → (m q).1 = Ok tt.
Proof.
  intros Hs Hd. destruct (m q) as [[[]|e|] q'] eqn:Hrun; simpl.
  - reflexivity.
  - exfalso. eapply Hs, Hrun.
  - exfalso. eapply Hd, Hrun.
Qed.

(** X3: A pass of the upload worker and a pass of the download worker
    always return: whatever a collaborator throws is caught on the way,
    and nothing reaches the caller.  Each leaves its busy flag as it
    found it, and when the flag is set the pass does nothing at all. *)
Theorem workers_return q :
  (uploadRecords q).1 = Ok tt ∧
  uploading (uploadRecords q).2 = uploading q ∧
  (uploading q = true → uploadRecords q = (Ok tt, q)) ∧
  (downloadRecords q).1 = Ok tt ∧
  downloading (downloadRecords q).2 = downloading q ∧
  (downloading q = true → downloadRecords q = (Ok tt, q)).
Proof.
  split_and!.
  - apply returns_unit; [apply uploadRecords_safe|apply uploadRecords_defined].
  - unfold uploadRecords, uploadRecords_fuel.
    destruct (uploading q) eqn:Hflag; [done|]. unfold finally.
    by destruct (try_catch _ _ _).
  - intros Hflag. unfold uploadRecords, uploadRecords_fuel. by rewrite Hflag.
  - apply returns_unit; [apply downloadRecords_safe|apply downloadRecords_defined].
  - unfold downloadRecords.
    destruct (downloading q) eqn:Hflag; [done|]. unfold finally.
    by destruct (try_catch _ _ _).
  - intros Hflag. unfold downloadRecords. by rewrite Hflag.
Qed.

Lemma same_or_synced_kept (P : AttachmentRecord → Prop) (t t' : Table) i row :
  same_or_synced P t t' → t !! i = Some row →
  (¬ P (to_record i row) → t' !! i = Some row) ∧
  (t' !! i = Some row ∨ row_state <$> t' !! i = Some SYNCED).
Proof.
  intros [_ Hrows] Hrow. destruct (Hrows i) as [Hsame|(row0 & Hrow0 & HP & Hs)].
  - rewrite Hsame, Hrow. by split; [|left].
  - rewrite Hrow in Hrow0. injection Hrow0 as <-. split; [done|by right].
Qed.

(** X4: A pass of the upload worker changes no row but those of upload
    candidates, and a row it changes ends as SYNCED; it neither adds
    nor removes a row. *)
Theorem uploadRecords_touches_candidates_only q :
  let t' := db (uploadRecords q).2 in
  dom t' = dom (db q) ∧
  ∀ i row, db q !! i = Some row →
    (¬ upload_eligible (to_record i row) → t' !! i = Some row) ∧
    (t' !! i = Some row ∨ row_state <$> t' !! i = Some SYNCED).
Proof.
  pose proof (uploadRecords_frame q) as Hframe. split; [apply Hframe|].
  intros i row Hrow. by apply (same_or_synced_kept upload_eligible (db q)).
Qed.

(** X5: A pass of the download worker changes no row but those of download
    candidates, and a row it changes ends as SYNCED; it neither adds
    nor removes a row. *)
Theorem downloadRecords_touches_candidates_only q :
  let t' := db (downloadRecords q).2 in
  dom t' = dom (db q) ∧
  ∀ i row, db q !! i = Some row →
    (¬ download_eligible (to_record i row) → t' !! i = Some row) ∧
    (t' !! i = Some row ∨ row_state <$> t' !! i = Some SYNCED).
Proof.
  pose proof (downloadRecords_frame q) as Hframe. split; [apply Hframe|].
  intros i row Hrow. by apply (same_or_synced_kept download_eligible (db q)).
Qed.

Lemma expireCache_frame q i :
  db (expireCache q).2 !! i = db q !! i ∨
  (db (expireCache q).2 !! i = None ∧
   ∃ row, db q !! i = Some row ∧ row_state row = SYNCED).
Proof.
  destruct (cacheLimit (options q)) as [limit|] eqn:Hlimit.
  - destruct (expireCache q) as [o q'] eqn:Hrun. simpl.
    destruct (expireCache_outcomes q limit _ _ Hlimit Hrun) as (_ & Hok & Hother).
    destruct o as [[]|e|]; [|left; by rewrite Hother..].
    destruct (Hok eq_refl) as [-> _]. rewrite lookup_delete_rows.
    destruct (decide _) as [Hin|]; [|by left].
    apply list_elem_of_fmap in Hin as (r & -> & Hr).
    apply select_expired_subseteq in Hr as [Hr Hs].
    apply elem_of_rows in Hr as (row & Hrow & Heq).
    rewrite Hrow. right. split; [done|]. exists row. split; [done|].
    rewrite Heq in Hs. exact Hs.
  - left. unfold expireCache. by rewrite Hlimit.
Qed.

(** X6: A pass of the evictor changes no row: it removes rows, and only
    SYNCED ones.  Every row in another state is still there afterwards,
    as it was. *)
Theorem expireCache_only_removes_synced q :
  let t' := db (expireCache q).2 in
  t' ⊆ db q ∧
  ∀ i row, db q !! i = Some row →
    (row_state row ≠ SYNCED → t' !! i = Some row) ∧
    (t' !! i = Some row ∨ t' !! i = None).
Proof.
  split.
  - apply map_subseteq_spec. intros i row Hrow.
    destruct (expireCache_frame q i) as [Hsame|[Hnone _]]; congruence.
  - intros i row Hrow.
    destruct (expireCache_frame q i) as [Hsame|(Hnone & row' & Hrow' & Hs)].
    + rewrite Hsame, Hrow. by split; [|left].
    + rewrite Hrow in Hrow'. injection Hrow' as <-. split; [done|by right].
Qed.

(** X7: A record queued for upload without a local path is picked up by
    no pass: the upload worker, the download worker and the evictor
    all leave its row as it is. *)
Theorem upload_without_local_uri_is_stuck q i row :
  db q !! i = Some row →
  row_state row = QUEUED_UPLOAD →
  row_local_uri row = None →
  db (uploadRecords q).2 !! i = Some row ∧
  db (downloadRecords q).2 !! i = Some row ∧
  db (expireCache q).2 !! i = Some row.
Proof.
  intros Hrow Hstate Huri. split_and!.
  - apply (same_or_synced_kept upload_eligible (db q)); [apply uploadRecords_frame|done|].
    unfold upload_eligible. simpl. rewrite Huri. by intros [? _].
  - apply (same_or_synced_kept download_eligible (db q));
      [apply downloadRecords_frame|done|].
    unfold download_eligible. simpl. rewrite Hstate. by intros [?|?].
  - destruct (expireCache_frame q i) as [Hsame|(_ & row' & Hrow' & Hs)].
    + by rewrite Hsame.
    + rewrite Hrow in Hrow'. injection Hrow' as <-. congruence.
Qed.

End Passes.

(** ** No empty local path is ever stored *)

Section UriNormal.
Context {W : Type} `{!Platform W} `{!Device W}.
Implicit Types (q : Queue W) (r : AttachmentRecord).

#[local] Arguments upload_loop : simpl never.

Lemma uri_normal_update (now : Z) r (t : Table) :
  uri_normal t → uri_normal (sql_update now r t).
Proof.
  intros Ht i row. unfold sql_update.
  destruct (decide (i = record_id r)) as [->|Hne].
  - rewrite lookup_alter_eq. destruct (t !! record_id r); [|done].
    intros [= <-]. simpl. apply or_null_not_empty.
  - rewrite lookup_alter_ne by done. apply Ht.
Qed.

Lemma uri_normal_insert r (t : Table) :
  uri_normal t → uri_normal (sql_insert_or_replace r t).
Proof.
  intros Ht. unfold sql_insert_or_replace. apply map_Forall_insert_2; [|done].
  simpl. apply or_null_not_empty.
Qed.

Lemma uri_normal_mark (ids : list string) (t : Table) :
  uri_normal t → uri_normal (sql_mark_for_sync ids t).
Proof.
  intros Ht i row. rewrite sql_mark_for_sync_lookup.
  destruct (t !! i) as [row0|] eqn:Hrow0; [|done].
  intros [= <-]. specialize (Ht i row0 Hrow0). by case_bool_decide.
Qed.

Lemma uri_normal_delete (i : string) (t : Table) :
  uri_normal t → uri_normal (sql_delete i t).
Proof. apply map_Forall_delete. Qed.

Ltac keep_uri :=
  repeat first
    [ apply keeps_update; [intros; by apply uri_normal_update]
    | apply keeps_ret | apply keeps_throw | apply keeps_out_of_model
    | apply keeps_emit | apply keeps_call | apply keeps_query
    | apply keeps_bind; [|intros ?]
    | apply keeps_try_catch; [|intros ?] ].

Lemma keeps_uri_uploadAttachment r : keeps (W := W) uri_normal (uploadAttachment r).
Proof.
  unfold uploadAttachment. destruct (or_null (local_uri r)); [|apply keeps_throw].
  apply keeps_try_catch; [keep_uri|].
  intros e. destruct (is_duplicate e); keep_uri.
Qed.

Lemma uploadAttachment_safe r : truthy (local_uri r) = true → safe (uploadAttachment r).
Proof.
  intros Ht. unfold uploadAttachment.
  destruct (or_null (local_uri r)) eqn:Huri.
  - apply safe_try_catch. intros e. destruct (is_duplicate e); comp.
  - apply or_null_falsy in Huri. congruence.
Qed.

Lemma keeps_uri_upload_loop fuel r : keeps (W := W) uri_normal (upload_loop fuel r).
Proof.
  revert r. induction fuel as [|fuel IH]; intros r; [apply keeps_out_of_model|].
  unfold upload_loop; fold (upload_loop (W := W)).
  apply keeps_bind; [apply keeps_uri_uploadAttachment|].
  intros []; [|apply keeps_ret].
  apply keeps_bind; [apply keeps_query|]. intros [r'|]; [apply IH|apply keeps_ret].
Qed.

Lemma keeps_uri_uploadRecords : keeps (W := W) uri_normal uploadRecords.
Proof.
  intros q Hq. unfold uploadRecords, uploadRecords_fuel.
  destruct (uploading q); [done|]. unfold finally.
  set (m := try_catch _ _).
  assert (Hm : keeps uri_normal m).
  { apply keeps_try_catch; [|intros; apply keeps_emit].
    apply keeps_bind; [apply keeps_query|]. intros [r|]; [|apply keeps_ret].
    apply keeps_bind; [apply keeps_emit|]. intros _.
    apply keeps_bind; [apply keeps_uri_upload_loop|]. intros _. apply keeps_emit. }
  specialize (Hm (set_uploading true q) Hq).
  by destruct (m (set_uploading true q)).
Qed.

Lemma keeps_uri_downloadRecord r : keeps (W := W) uri_normal (downloadRecord r).
Proof.
  unfold downloadRecord. apply keeps_bind; [apply keeps_call|].
  intros [].
  - keep_uri.
  - apply keeps_try_catch; [|intros; keep]. unfold download_attempt. keep_uri.
Qed.

Lemma keeps_uri_download_loop (records : list AttachmentRecord) :
  keeps (W := W) uri_normal (download_loop records).
Proof.
  induction records as [|r rest IH]; simpl; [apply keeps_ret|].
  apply keeps_bind; [apply keeps_uri_downloadRecord|]. by intros _.
Qed.

Lemma keeps_uri_downloadRecords : keeps (W := W) uri_normal downloadRecords.
Proof.
  intros q Hq. unfold downloadRecords.
  destruct (downloading q); [done|]. unfold finally.
  set (m := try_catch _ _).
  assert (Hm : keeps uri_normal m).
  { apply keeps_try_catch; [|intros; apply keeps_emit].
    apply keeps_bind; [apply keeps_query|]. intros records.
    case_bool_decide; [apply keeps_ret|].
    apply keeps_bind; [apply keeps_emit|]. intros _.
    apply keeps_bind; [apply keeps_uri_download_loop|]. intros _. apply keeps_emit. }
  specialize (Hm (set_downloading true q) Hq).
  by destruct (m (set_downloading true q)).
Qed.

Lemma keeps_uri_delete r (in_tx : bool) : keeps (W := W) uri_normal (delete r in_tx).
Proof.
  unfold delete. apply keeps_bind; [|intros; apply keeps_call].
  destruct in_tx; [|apply keeps_writeTransaction];
    apply keeps_execute; intros; by apply uri_normal_delete.
Qed.

Lemma keeps_uri_delete_all (records : list AttachmentRecord) :
  keeps (W := W) uri_normal (delete_all records).
Proof.
  induction records as [|r rest IH]; simpl; [apply keeps_ret|].
  apply keeps_bind; [apply keeps_uri_delete|]. by intros _.
Qed.

Lemma keeps_uri_expireCache : keeps (W := W) uri_normal expireCache.
Proof.
  intros q Hq. unfold expireCache.
  destruct (cacheLimit (options q)) as [limit|]; [|done].
  revert q Hq. apply keeps_bind; [apply keeps_query|]. intros res.
  case_bool_decide; [apply keeps_ret|]. keep.
  apply keeps_writeTransaction, keeps_uri_delete_all.
Qed.

Lemma keeps_uri_markForSync (ids : list string) :
  keeps (W := W) uri_normal (markForSync ids).
Proof.
  unfold markForSync. case_bool_decide; [|apply keeps_ret].
  destruct (forallb sql_plain ids); [|apply keeps_out_of_model].
  apply keeps_execute. intros. by apply uri_normal_mark.
Qed.

Lemma keeps_uri_init : keeps (W := W) uri_normal init.
Proof.
  unfold init. apply keeps_bind; [apply keeps_call|]. intros _.
  apply keeps_bind.
  - intros q Hq. destruct (getAttachmentIds (options q)); [by apply keeps_call|done].
  - intros ids. apply keeps_bind; [|intros; keep].
    case_bool_decide; [apply keeps_uri_markForSync|apply keeps_ret].
Qed.

Lemma keeps_uri_saveToQueue (d : Draft) : keeps (W := W) uri_normal (saveToQueue d).
Proof.
  intros q Hq. rewrite saveToQueue_run. simpl. by apply uri_normal_insert.
Qed.

Lemma keeps_uri_savePhoto (data : string) : keeps (W := W) uri_normal (savePhoto data).
Proof.
  unfold savePhoto. apply keeps_bind.
  - unfold newPhotoRecord. apply keeps_bind; [|intros; apply keeps_ret].
    destruct (partial_id _); [apply keeps_ret|].
    intros q Hq. by destruct (uuid (world q)).
  - intros d. destruct (draft_local_uri d); [|apply keeps_out_of_model].
    apply keeps_bind; [apply keeps_call|]. intros _.
    apply keeps_bind.
    + intros q Hq. unfold unlogged. by destruct (getInfoAsync _ _).
    + intros info. apply keeps_uri_saveToQueue.
Qed.

(** X8: The queue never stores the empty string as a local path: when no
    row holds one, none does after any of its methods, whatever the
    outcome.  An upload candidate then has a local path that is not
    falsy, so that the guard of [uploadAttachment] lets a record
    through that [getNextUploadRecord] has returned: its error for a
    missing local path is not raised. *)
Theorem local_uri_never_stored_empty q :
  uri_normal (db q) →
  (∀ d, uri_normal (db (saveToQueue d q).2)) ∧
  (∀ data, uri_normal (db (savePhoto data q).2)) ∧
  (∀ r, uri_normal (db (update r q).2)) ∧
  (∀ ids, uri_normal (db (markForSync ids q).2)) ∧
  (∀ r in_tx, uri_normal (db (delete r in_tx q).2)) ∧
  uri_normal (db (clearQueue q).2) ∧
  uri_normal (db (init q).2) ∧
  uri_normal (db (uploadRecords q).2) ∧
  uri_normal (db (downloadRecords q).2) ∧
  uri_normal (db (expireCache q).2) ∧
  (∀ r, (getNextUploadRecord q).1 = Ok (Some r) →
        truthy (local_uri r) = true ∧
        ∀ r' q', uploadAttachment r q ≠ (Throw (NoLocalUri r'), q')).
Proof.
  intros Hq. split_and!.
  - intros d. by apply keeps_uri_saveToQueue.
  - intros data. by apply keeps_uri_savePhoto.
  - intros r. apply keeps_update; [|done]. intros. by apply uri_normal_update.
  - intros ids. by apply keeps_uri_markForSync.
  - intros r in_tx. by apply keeps_uri_delete.
  - apply (keeps_writeTransaction uri_normal); [|done].
    intros q0 _. simpl. apply map_Forall_empty.
  - by apply keeps_uri_init.
  - by apply keeps_uri_uploadRecords.
  - by apply keeps_uri_downloadRecords.
  - by apply keeps_uri_expireCache.
  - intros r. unfold getNextUploadRecord, query. simpl. intros [= Hhead].
    apply head_Some_elem_of, elem_of_select_upload in Hhead as [[Huri _] Hr].
    apply elem_of_rows in Hr as (row & Hrow & Heq).
    assert (Htruthy : truthy (local_uri r) = true).
    { specialize (Hq _ _ Hrow). simpl in Hq. rewrite Heq in *. simpl in *.
      by destruct (row_local_uri row) as [[|c s]|]. }
    split; [done|]. intros r' q'. by apply uploadAttachment_safe.
Qed.

End UriNormal.

(** ** A pass over a platform that does not fail *)

Section Draining.
Context {W : Type} `{!Platform W}.
Implicit Types (q : Queue W) (r : AttachmentRecord).

#[local] Arguments upload_loop : simpl never.
#[local] Arguments or_null : simpl never.

Lemma candidate_truthy (t : Table) r :
  uri_normal t → r ∈ select_upload t → truthy (local_uri r) = true.
Proof.
  intros Ht [[Huri _] Hr]%elem_of_select_upload.
  apply elem_of_rows in Hr as (row & Hrow & Heq).
  specialize (Ht _ _ Hrow). simpl in Ht. rewrite Heq in *. simpl in *.
  by destruct (row_local_uri row) as [[|c s]|].
Qed.

Lemma uploadAttachment_succeeds r q :
  (∀ p m w, ∃ b w', readFile p m w = (Returns b, w')) →
  (∀ n b m w, ∃ w', uploadFile n b m w = (Returns tt, w')) →
  truthy (local_uri r) = true →
  ∃ q1 t, uploadAttachment r q = (Ok true, q1) ∧
          db q1 = sql_update t (with_state SYNCED r) (db q).
Proof.
  intros Hread Hup Ht. unfold uploadAttachment.
  assert (Huri : or_null (local_uri r) = local_uri r) by (unfold or_null; by rewrite Ht).
  rewrite Huri. destruct (local_uri r) as [uri|]; [|done].
  destruct (Hread uri (media_type r) (world q)) as (buf & w1 & Hr).
  destruct (Hup (filename r) buf (or_null (media_type r)) w1) as (w2 & Hu).
  run. rewrite Hr. simpl. rewrite Hu. simpl.
  destruct (getTime w2) as [t w3]. simpl. by eexists _, t.
Qed.

Lemma upload_loop_drains fuel r q :
  (∀ p m w, ∃ b w', readFile p m w = (Returns b, w')) →
  (∀ n b m w, ∃ w', uploadFile n b m w = (Returns tt, w')) →
  uri_normal (db q) →
  r ∈ select_upload (db q) →
  length (select_upload (db q)) ≤ fuel →
  select_upload (db (upload_loop fuel r q).2) = [].
Proof.
  intros Hread Hup. revert r q.
  induction fuel as [|fuel IH]; intros r q Hq Hr Hlen.
  - destruct (select_upload (db q)); [by apply elem_of_nil in Hr|simpl in Hlen; lia].
  - unfold upload_loop; fold (upload_loop (W := W)). unfold bind at 1.
    destruct (uploadAttachment_succeeds r q Hread Hup) as (q1 & t & -> & Hdb);
      [by apply (candidate_truthy (db q))|].
    pose proof (select_upload_after_sync t r (db q) Hr) as Hless.
    rewrite <- Hdb in Hless.
    unfold bind, getNextUploadRecord, query. simpl.
    destruct (head (select_upload (db q1))) as [r'|] eqn:Hhead.
    + apply IH; simpl.
      * rewrite Hdb. by apply uri_normal_update.
      * by apply head_Some_elem_of.
      * lia.
    + simpl. by apply head_None.
Qed.

(** X9: Over a storage whose reads and uploads return, and a table without
    empty local paths, a pass of the upload worker empties the upload
    queue: no candidate is left, and every row that was one is SYNCED. *)
Theorem uploadRecords_drains q :
  (∀ p m w, ∃ b w', readFile p m w = (Returns b, w')) →
  (∀ n b m w, ∃ w', uploadFile n b m w = (Returns tt, w')) →
  uri_normal (db q) →
  uploading q = false →
  select_upload (db (uploadRecords q).2) = [] ∧
  ∀ i row, db q !! i = Some row → upload_eligible (to_record i row) →
           row_state <$> db (uploadRecords q).2 !! i = Some SYNCED.
Proof.
  intros Hread Hup Hq Hflag.
  assert (Hnone : select_upload (db (uploadRecords q).2) = []).
  { unfold uploadRecords, uploadRecords_fuel. rewrite Hflag.
    unfold finally, try_catch, bind at 1, getNextUploadRecord, query. simpl.
    destruct (head (select_upload (db q))) as [r|] eqn:Hhead;
      [|simpl; by apply head_None].
    unfold bind at 1, emit at 1. unfold bind at 1.
    pose proof (upload_loop_drains (S (size (db q))) r
                  (log_event (Console Debug)
                     (log_event SqlSelectUpload (set_uploading true q)))
                  Hread Hup Hq (head_Some_elem_of _ _ Hhead)) as Hloop.
    simpl in Hloop.
    assert (Hlen : length (select_upload (db q)) ≤ S (size (db q))).
    { rewrite select_upload_length.
      pose proof (length_filter upload_eligible (rows (db q))).
      rewrite rows_length in *. lia. }
    specialize (Hloop Hlen).
    destruct (upload_loop _ _ _) as [[[]|e|] q1]; simpl in *; done. }
  split; [done|]. intros i row Hrow Hel.
  destruct (same_or_synced_kept upload_eligible _ _ i row (uploadRecords_frame q) Hrow)
    as [_ [Hsame|Hs]]; [|done].
  exfalso. assert (Hin : to_record i row ∈ select_upload (db (uploadRecords q).2)).
  { apply elem_of_select_upload. split; [done|].
    apply elem_of_rows. by exists row. }
  rewrite Hnone in Hin. by apply elem_of_nil in Hin.
Qed.

Lemma downloadRecord_keeps_synced r q (i : string) :
  row_state <$> db q !! i = Some SYNCED →
  row_state <$> db (downloadRecord r q).2 !! i = Some SYNCED.
Proof.
  intros Hs. destruct (downloadRecord_effect r q) as [->|(t & r' & Hid & Hst & _ & ->)];
    [done|].
  destruct (decide (i = record_id r')) as [->|Hne].
  - rewrite <- Hst. apply sql_update_state.
    destruct (db q !! record_id r'); [by eexists|done].
  - by rewrite sql_update_other.
Qed.

Lemma download_loop_keeps_synced (records : list AttachmentRecord) q (i : string) :
  row_state <$> db q !! i = Some SYNCED →
  row_state <$> db (download_loop records q).2 !! i = Some SYNCED.
Proof.
  revert q. induction records as [|r rest IH]; intros q Hs; [done|].
  simpl. unfold bind at 1.
  pose proof (downloadRecord_keeps_synced r q i Hs) as Hstep.
  destruct (downloadRecord r q) as [[b|e|] q1]; simpl in *; [by apply IH|done..].
Qed.

Lemma downloadRecord_succeeds r q :
  (∀ p w, ∃ b w', fileExists p w = (Returns b, w')) →
  (∀ n w, ∃ b w', downloadFile n w = (Returns b, w')) →
  (∀ b w, ∃ d w', readAsBase64 b w = (Returns d, w')) →
  (∀ p w, ∃ w', makeDir p w = (Returns tt, w')) →
  (∀ p d w, ∃ w', writeFile p d w = (Returns tt, w')) →
  ∃ q1 t r', downloadRecord r q = (Ok true, q1) ∧
             record_id r' = record_id r ∧ state r' = SYNCED ∧
             db q1 = sql_update t r' (db q).
Proof.
  intros Hex Hdown Hread Hdir Hwrite.
  unfold downloadRecord, bind at 1, call at 1.
  destruct (Hex (local_path r) (world q)) as ([] & w & ->); simpl.
  - run. destruct (getTime w) as [t w']. simpl.
    eexists _, t, (with_state SYNCED (ensure_local_uri r)).
    split_and!; [done| |reflexivity|reflexivity].
    apply record_id_ensure.
  - unfold try_catch, download_attempt. run.
    destruct (Hdown (filename (ensure_local_uri r)) w) as (b & w1 & ->). simpl.
    destruct (Hread b w1) as (d & w2 & ->). simpl.
    destruct (Hdir (remove_first (filename (ensure_local_uri r)) (local_path r)) w2)
      as (w3 & ->). simpl.
    destruct (Hwrite (local_path r) d w3) as (w4 & ->). simpl.
    destruct (getTime w4) as [t w5]. simpl.
    eexists _, t,
      (with_state SYNCED (with_media_type (Some (blob_type b)) (ensure_local_uri r))).
    split_and!; [done| |reflexivity|reflexivity].
    apply record_id_ensure.
Qed.

Lemma download_loop_syncs (records : list AttachmentRecord) q r :
  (∀ p w, ∃ b w', fileExists p w = (Returns b, w')) →
  (∀ n w, ∃ b w', downloadFile n w = (Returns b, w')) →
  (∀ b w, ∃ d w', readAsBase64 b w = (Returns d, w')) →
  (∀ p w, ∃ w', makeDir p w = (Returns tt, w')) →
  (∀ p d w, ∃ w', writeFile p d w = (Returns tt, w')) →
  r ∈ records →
  is_Some (db q !! record_id r) →
  row_state <$> db (download_loop records q).2 !! record_id r = Some SYNCED.
Proof.
  intros Hex Hdown Hread Hdir Hwrite. revert q.
  induction records as [|r0 rest IH]; intros q Hr Hrow; [by apply elem_of_nil in Hr|].
  simpl. unfold bind at 1.
  destruct (downloadRecord_succeeds r0 q Hex Hdown Hread Hdir Hwrite)
    as (q1 & t & r' & -> & Hid & Hst & Hdb).
  apply elem_of_cons in Hr as [->|Hr].
  - apply download_loop_keeps_synced. rewrite Hdb, <- Hid, <- Hst.
    apply sql_update_state. by rewrite Hid.
  - apply IH; [done|]. rewrite Hdb. by apply sql_update_is_Some.
Qed.

(** X10: Over a storage all of whose calls return, a pass of the download
    worker empties the download queue: no candidate is left, and every
    row that was one is SYNCED. *)
Theorem downloadRecords_drains q :
  (∀ p w, ∃ b w', fileExists p w = (Returns b, w')) →
  (∀ n w, ∃ b w', downloadFile n w = (Returns b, w')) →
  (∀ b w, ∃ d w', readAsBase64 b w = (Returns d, w')) →
  (∀ p w, ∃ w', makeDir p w = (Returns tt, w')) →
  (∀ p d w, ∃ w', writeFile p d w = (Returns tt, w')) →
  downloading q = false →
  select_download (db (downloadRecords q).2) = [] ∧
  ∀ i row, db q !! i = Some row → download_eligible (to_record i row) →
           row_state <$> db (downloadRecords q).2 !! i = Some SYNCED.
Proof.
  intros Hex Hdown Hread Hdir Hwrite Hflag.
  assert (Hsynced : ∀ i row, db q !! i = Some row → download_eligible (to_record i row) →
            row_state <$> db (downloadRecords q).2 !! i = Some SYNCED).
  { intros i row Hrow Hel.
    assert (Hin : to_record i row ∈ select_download (db q)).
    { apply elem_of_select_download. split; [done|].
      apply elem_of_rows. by exists row. }
    unfold downloadRecords. rewrite Hflag.
    unfold finally, try_catch, bind at 1, getNextDownloadRecords, query. simpl.
    case_bool_decide as Hlen.
    { apply length_zero_iff_nil in Hlen. rewrite Hlen in Hin.
      by apply elem_of_nil in Hin. }
    unfold bind at 1, emit at 1. unfold bind at 1.
    pose proof (download_loop_syncs (select_download (db q))
                  (log_event (Console Debug)
                     (log_event SqlSelectDownload (set_downloading true q)))
                  (to_record i row) Hex Hdown Hread Hdir Hwrite Hin) as Hloop.
    simpl in Hloop. rewrite Hrow in Hloop. specialize (Hloop (mk_is_Some _ _ eq_refl)).
    destruct (download_loop _ _) as [[[]|e|] q1]; simpl in *; done. }
  split; [|done].
  apply elem_of_nil_inv. intros r [Hel Hr]%elem_of_select_download.
  apply elem_of_rows in Hr as (row' & Hrow' & Heq).
  assert (Hstate : row_state row' ≠ SYNCED).
  { rewrite Heq in Hel. destruct Hel as [Hst|Hst]; simpl in Hst; congruence. }
  destruct (downloadRecords_frame q) as [_ Hrows].
  destruct (Hrows (record_id r)) as [Hsame|(row & _ & _ & Hs)].
  - rewrite Hrow' in Hsame. symmetry in Hsame.
    rewrite Heq in Hel.
    specialize (Hsynced _ _ Hsame Hel). rewrite Hrow' in Hsynced.
    simpl in Hsynced. congruence.
  - rewrite Hrow' in Hs. simpl in Hs. congruence.
Qed.

End Draining.

(** ** Deleting *)

Section Deleting.
Context {W : Type} `{!Platform W} `{!Device W}.
Implicit Types (q : Queue W) (r : AttachmentRecord).

(** X11: [delete] without a transaction of the caller's commits the removal
    of the row before it turns to the file: the row is gone whether the
    deletion of the file returns or throws, and the outcome of [delete]
    is the one of [deleteFile], called once with the record's local
    path, or the path derived from its file name when it has none. *)
Theorem delete_commits_before_file r q :
  db (delete r false q).2 = sql_delete (record_id r) (db q) ∧
  (delete r false q).1
    = outcome_of (deleteFile (filename r) (local_path r) (world q)).1 ∧
  trace (delete r false q).2
    = trace q ++ [BeginTransaction; SqlDelete (record_id r); Commit;
                  DeleteFile (filename r) (local_path r)] ∧
  (truthy (local_uri r) = false → local_path r = getLocalUri (filename r)).
Proof.
  unfold delete. run.
  destruct (deleteFile (filename r) (local_path r) (world q)) as [[[]|e] w]; simpl;
    (split_and!; [done|done|by rewrite <- !app_assoc|]);
    intros Hf; unfold local_path, or_null; by rewrite Hf.
Qed.

(** A transaction of deletions stops at the first file whose deletion
    throws. *)
Lemma delete_all_stops (done rest : list AttachmentRecord) r q w1 e w' :
  delete_files done (world q) = (Returns tt, w1) →
  deleteFile (filename r) (local_path r) w1 = (Throws e, w') →
  ∃ q1, delete_all (done ++ r :: rest) q = (Throw e, q1) ∧
        world q1 = w' ∧
        file_deletions (trace q1) =
        file_deletions (trace q)
          ++ ((λ r, DeleteFile (filename r) (local_path r)) <$> (done ++ [r])).
Proof.
  revert q. induction done as [|d ds IH]; intros q; simpl.
  - intros [= <-] Hthrow.
    unfold bind at 1. unfold delete, bind at 1, execute, call. simpl.
    rewrite Hthrow. simpl. eexists. split_and!; [done|done|].
    simpl. rewrite !file_deletions_snoc. simpl. by rewrite app_nil_r.
  - destruct (deleteFile (filename d) (local_path d) (world q)) as [[[]|e'] w] eqn:Hdel;
      [|discriminate].
    intros Hdone Hthrow.
    unfold bind at 1. unfold delete, bind at 1, execute, call. simpl.
    rewrite Hdel. simpl.
    match goal with |- context [delete_all _ ?q0] =>
      destruct (IH q0 Hdone Hthrow) as (q1 & Hrun & Hw & Htr) end.
    exists q1. split_and!; [done|done|].
    rewrite Htr. simpl. rewrite !file_deletions_snoc. simpl.
    by rewrite app_nil_r, <- app_assoc.
Qed.

(** X12: When the deletion of a file throws in a pass of the evictor, the
    deletions before it having returned, the pass raises that error
    and the table is as it was before the pass: the rows deleted so far
    are back, those of the files that have already been deleted
    included.  The storage is left as the failed call left it. *)
Theorem expireCache_rolls_back q limit (done rest : list AttachmentRecord) r w1 e w' :
  cacheLimit (options q) = Some limit →
  select_expired limit (db q) = done ++ r :: rest →
  delete_files done (world q) = (Returns tt, w1) →
  deleteFile (filename r) (local_path r) w1 = (Throws e, w') →
  let q' := (expireCache q).2 in
  (expireCache q).1 = Throw e ∧
  db q' = db q ∧
  (∀ r', r' ∈ done → r' ∈ rows (db q')) ∧
  world q' = w' ∧
  last (trace q') = Some Rollback ∧
  file_deletions (trace q') =
  file_deletions (trace q)
    ++ ((λ r, DeleteFile (filename r) (local_path r)) <$> (done ++ [r])).
Proof.
  intros Hlimit Hsel Hdone Hthrow.
  rewrite (expireCache_run q limit Hlimit). rewrite Hsel.
  case_bool_decide as Hlen; [by rewrite length_app in Hlen; simpl in Hlen; lia|].
  unfold writeTransaction.
  set (q0 := log_event BeginTransaction _).
  destruct (delete_all_stops done rest r q0 w1 e w') as (q1 & Hrun & Hw & Htr);
    [done|done|].
  rewrite Hrun. simpl. split_and!.
  - reflexivity.
  - reflexivity.
  - intros r' Hr'. apply (select_expired_subseteq limit). rewrite Hsel.
    apply elem_of_app. by left.
  - done.
  - apply last_snoc.
  - rewrite file_deletions_snoc. simpl. rewrite app_nil_r, Htr. unfold q0. simpl.
    rewrite !file_deletions_snoc. simpl. by rewrite !app_nil_r.
Qed.

Lemma rows_empty : rows ∅ = [].
Proof. unfold rows. by rewrite map_to_list_empty. Qed.

(** X13: [clearQueue] empties the table in one transaction and calls
    nothing else: the storage is not touched, so the files stay.
    After it the queries of both workers and of both watchers find
    nothing. *)
Theorem clearQueue_keeps_files q :
  let q' := (clearQueue q).2 in
  (clearQueue q).1 = Ok tt ∧
  db q' = ∅ ∧
  world q' = world q ∧
  trace q' = trace q ++ [BeginTransaction; Commit] ∧
  (getNextUploadRecord q').1 = Ok None ∧
  (getNextDownloadRecords q').1 = Ok [] ∧
  idsToUpload (db q') = [] ∧
  idsToDownload (db q') = [].
Proof.
  unfold clearQueue, writeTransaction, unlogged_execute. simpl.
  unfold select_upload, select_download, idsToUpload, idsToDownload.
  rewrite rows_empty. split_and!; try done. by rewrite <- app_assoc.
Qed.

End Deleting.

(** ** Watchers, the head of the queue and start-up *)

Section Watching.
Context {W : Type} `{!Platform W} `{!Device W}.
Implicit Types (q : Queue W) (r : AttachmentRecord) (t : Table).

(** X14: The ids a watcher yields are those of the records its worker will
    find, each once: a watcher starts a pass exactly when the pass has
    a record to work on. *)
Theorem watchers_agree_with_workers q :
  idsToUpload (db q) ≡ₚ record_id <$> select_upload (db q) ∧
  idsToDownload (db q) ≡ₚ record_id <$> select_download (db q) ∧
  NoDup (idsToUpload (db q)) ∧
  NoDup (idsToDownload (db q)) ∧
  (match (getNextUploadRecord q).1 with
   | Ok (Some _) => watchUploads_turn (idsToUpload (db q)) q = uploadRecords q
   | _ => watchUploads_turn (idsToUpload (db q)) q = (Ok tt, q)
   end) ∧
  (match (getNextDownloadRecords q).1 with
   | Ok (_ :: _) => watchDownloads_turn (idsToDownload (db q)) q = downloadRecords q
   | _ => watchDownloads_turn (idsToDownload (db q)) q = (Ok tt, q)
   end).
Proof.
  assert (Hup : idsToUpload (db q) ≡ₚ record_id <$> select_upload (db q)).
  { unfold idsToUpload, select_upload, order_by_timestamp_asc.
    by rewrite merge_sort_Permutation. }
  assert (Hdown : idsToDownload (db q) ≡ₚ record_id <$> select_download (db q)).
  { unfold idsToDownload, select_download, order_by_timestamp_asc.
    by rewrite merge_sort_Permutation. }
  split_and!; [done|done| | | |].
  - unfold idsToUpload. eapply sublist_NoDup; [apply rows_ids_NoDup|].
    apply fmap_sublist, sublist_filter.
  - unfold idsToDownload. eapply sublist_NoDup; [apply rows_ids_NoDup|].
    apply fmap_sublist, sublist_filter.
  - unfold getNextUploadRecord, query, watchUploads_turn. simpl.
    apply Permutation_length in Hup. rewrite length_fmap in Hup.
    destruct (select_upload (db q)) as [|r rest]; simpl in *.
    + by rewrite bool_decide_eq_false_2 by lia.
    + by rewrite bool_decide_eq_true_2 by lia.
  - unfold getNextDownloadRecords, query, watchDownloads_turn. simpl.
    apply Permutation_length in Hdown. rewrite length_fmap in Hdown.
    destruct (select_download (db q)) as [|r rest]; simpl in *.
    + by rewrite bool_decide_eq_false_2 by lia.
    + by rewrite bool_decide_eq_true_2 by lia.
Qed.

(** X15: [getNextUploadRecord] returns an upload candidate that no other
    candidate precedes in time, and returns null only when the table
    holds no candidate. *)
Theorem getNextUploadRecord_oldest q :
  match (getNextUploadRecord q).1 with
  | Ok (Some r) =>
      r ∈ rows (db q) ∧ upload_eligible r ∧
      ∀ r', r' ∈ rows (db q) → upload_eligible r' → (timestamp r ≤ timestamp r')%Z
  | Ok None => ∀ r', r' ∈ rows (db q) → ¬ upload_eligible r'
  | _ => False
  end.
Proof.
  unfold getNextUploadRecord, query. simpl.
  pose proof (StronglySorted_merge_sort older (filter upload_eligible (rows (db q))))
    as Hsorted.
  fold (order_by_timestamp_asc (filter upload_eligible (rows (db q)))) in Hsorted.
  fold (select_upload (db q)) in Hsorted.
  pose proof (elem_of_select_upload (db q)) as Hin.
  destruct (select_upload (db q)) as [|r rest]; simpl.
  - intros r' Hr' Hel. apply (elem_of_nil r'), Hin. by split.
  - destruct (proj1 (Hin r) (list_elem_of_here _ _)) as [Hel Hr].
    split_and!; [done|done|]. intros r' Hr' Hel'.
    assert (Hr'' : r' ∈ r :: rest) by (apply Hin; by split).
    apply elem_of_cons in Hr'' as [->|Hrest]; [lia|].
    apply StronglySorted_inv in Hsorted as [_ Hall].
    rewrite Forall_forall in Hall. by apply Hall.
Qed.

Lemma lifecycle_snoc (tr : list Event) (e : Event) :
  lifecycle (tr ++ [e]) = lifecycle tr ++ (if decide (is_lifecycle e) then [e] else []).
Proof. unfold lifecycle. by rewrite filter_app. Qed.

Ltac life :=
  intros [= <- <-]; simpl; rewrite ?lifecycle_snoc; simpl;
  rewrite ?app_nil_r, <- ?app_assoc; done.

(** X16: [init] starts the watchers and the timer last and only when
    everything before has returned: they are started, in that order,
    exactly when [init] returns.  When the directory cannot be made
    [init] raises at once, before the reconciliation hook is called;
    when the hook throws, [init] raises and the table is as it was. *)
Theorem init_starts_last q :
  lifecycle (trace (init q).2) =
    lifecycle (trace q)
      ++ match (init q).1 with
         | Ok _ => [WatchUploads; WatchDownloads; SetInterval ATTACHMENT_QUEUE_INTERVAL]
         | _ => []
         end ∧
  (∀ e w, makeDir ATTACHMENT_STORAGE_PATH (world q) = (Throws e, w) →
          init q = (Throw e, set_world w (log_event (MakeDir ATTACHMENT_STORAGE_PATH) q))) ∧
  (∀ w hook e w',
     makeDir ATTACHMENT_STORAGE_PATH (world q) = (Returns tt, w) →
     getAttachmentIds (options q) = Some hook →
     hook w = (Throws e, w') →
     (init q).1 = Throw e ∧ db (init q).2 = db q).
Proof.
  split_and!.
  - destruct (init q) as [o q'] eqn:Hrun. simpl. revert Hrun.
    unfold init, bind at 1, call at 1.
    destruct (makeDir ATTACHMENT_STORAGE_PATH (world q)) as [[[]|e] w1]; simpl;
      [|life].
    unfold bind at 1. simpl.
    destruct (getAttachmentIds (options q)) as [hook|].
    + unfold call. simpl. destruct (hook w1) as [[ids|e] w2]; simpl; [|life].
      unfold bind at 1. case_bool_decide as Hlen.
      * unfold markForSync. rewrite bool_decide_eq_true_2 by done.
        destruct (forallb sql_plain ids); run; life.
      * run. life.
    + run. life.
  - intros e w Hdir. unfold init, bind at 1, call at 1. by rewrite Hdir.
  - intros w hook e w' Hdir Hopt Hhook.
    destruct (init q) as [o q'] eqn:Hrun. simpl. revert Hrun.
    unfold init, bind at 1, call at 1. rewrite Hdir. simpl.
    unfold bind at 1. simpl. rewrite Hopt. unfold call. simpl. rewrite Hhook.
    simpl. by intros [= <- <-].
Qed.

(** X17: Marking for sync queues a row both ways: after [markForSync] every
    listed id that has a row is a download candidate, and an upload
    candidate exactly when it has a local path.  Marking the same ids
    again changes nothing. *)
Theorem markForSync_queues_both_ways (ids : list string) q :
  forallb sql_plain ids = true →
  let q1 := (markForSync ids q).2 in
  (markForSync ids q).1 = Ok tt ∧
  db (markForSync ids q1).2 = db q1 ∧
  ∀ i row, i ∈ ids → db q !! i = Some row →
    to_record i (row_with_state QUEUED_SYNC row) ∈ select_download (db q1) ∧
    (row_local_uri row ≠ None ↔
     to_record i (row_with_state QUEUED_SYNC row) ∈ select_upload (db q1)).
Proof.
  intros Hplain q1.
  destruct (markForSync_plain ids q Hplain) as (q1' & Hrun & _ & _ & Hdb).
  assert (Hq1 : q1 = q1') by (unfold q1; by rewrite Hrun). rewrite Hq1.
  destruct (markForSync_plain ids q1' Hplain) as (q2 & Hrun2 & _ & _ & Hdb2).
  split_and!.
  - by rewrite Hrun.
  - rewrite Hrun2. simpl. apply map_eq. intros i. rewrite Hdb2, Hdb.
    destruct (db q !! i) as [row|]; [|done]. simpl. by case_bool_decide.
  - intros i row Hi Hrow.
    assert (Hnew : db q1' !! i = Some (row_with_state QUEUED_SYNC row)).
    { rewrite Hdb, Hrow. simpl. by rewrite bool_decide_eq_true_2. }
    assert (Hin : to_record i (row_with_state QUEUED_SYNC row) ∈ rows (db q1')).
    { apply elem_of_rows. by eexists. }
    split.
    + apply elem_of_select_download. split; [by right|done].
    + rewrite elem_of_select_upload. unfold upload_eligible. simpl. split.
      * intros Huri. split; [split; [done|by right]|done].
      * by intros [[Huri _] _].
Qed.

End Watching.

(** ** Transfers that succeed *)

Section Transfers.
Context {W : Type} `{!Platform W} `{!Device W}.
Implicit Types (q : Queue W) (r : AttachmentRecord).

#[local] Arguments upload_loop : simpl never.
#[local] Arguments or_null : simpl never.

(** X18: When the file of a candidate is read and uploaded, the record is
    written back as SYNCED, after the upload and not before, and the
    loop turns to the queue again, where this record is no longer
    found. *)
Theorem upload_success_advances fuel r q uri buf w1 w2 t w3 :
  or_null (local_uri r) = Some uri →
  readFile uri (media_type r) (world q) = (Returns buf, w1) →
  uploadFile (filename r) buf (or_null (media_type r)) w1 = (Returns tt, w2) →
  getTime w2 = (t, w3) →
  ∃ q1,
    uploadAttachment r q = (Ok true, q1) ∧
    db q1 = sql_update t (with_state SYNCED r) (db q) ∧
    trace q1 = trace q ++ [ReadFile uri (media_type r);
                           UploadFile (filename r) buf (or_null (media_type r));
                           SqlUpdate (with_state SYNCED r) t;
                           Console Debug] ∧
    upload_loop (S fuel) r q =
      match head (select_upload (db q1)) with
      | Some r' => upload_loop fuel r' (log_event SqlSelectUpload q1)
      | None => (Ok tt, log_event SqlSelectUpload q1)
      end ∧
    (∀ r', r' ∈ select_upload (db q1) → record_id r' ≠ record_id r).
Proof.
  intros Huri Hread Hup Htime.
  assert (Hatt : uploadAttachment r q =
            (Ok true,
             log_event (Console Debug)
               (set_db (sql_update t (with_state SYNCED r) (db q))
                  (log_event (SqlUpdate (with_state SYNCED r) t)
                     (set_world w3
                        (set_world w2
                           (log_event (UploadFile (filename r) buf (or_null (media_type r)))
                              (set_world w1 (log_event (ReadFile uri (media_type r)) q))))))))).
  { unfold uploadAttachment. rewrite Huri. run.
    rewrite Hread. simpl. rewrite Hup. simpl. rewrite Htime. reflexivity. }
  eexists. split_and!.
  - exact Hatt.
  - reflexivity.
  - simpl. by rewrite <- !app_assoc.
  - unfold upload_loop; fold (upload_loop (W := W)). unfold bind at 1.
    rewrite Hatt. unfold bind, getNextUploadRecord, query. simpl.
    by destruct (head _).
  - simpl. intros r' [[_ Hst] Hr']%elem_of_select_upload Hid.
    apply elem_of_rows in Hr' as (row & Hrow & Heq).
    rewrite Hid in Hrow. unfold sql_update in Hrow. simpl in Hrow.
    rewrite lookup_alter_eq in Hrow.
    destruct (db q !! record_id r); [|done]. injection Hrow as <-.
    rewrite Heq in Hst. simpl in Hst. by destruct Hst.
Qed.

Lemma filename_ensure r : filename (ensure_local_uri r) = filename r.
Proof. unfold ensure_local_uri. by destruct (truthy (local_uri r)). Qed.

(** X19: A download that succeeds fetches the blob, makes the directory and
    writes the file before it touches the table; the row then reads as
    SYNCED, with the local path the file was written to and the media
    type of the blob. *)
Theorem download_success_writes_then_marks r q w0 b w1 d w2 w3 w4 t w5 :
  fileExists (local_path r) (world q) = (Returns false, w0) →
  downloadFile (filename r) w0 = (Returns b, w1) →
  readAsBase64 b w1 = (Returns d, w2) →
  makeDir (remove_first (filename r) (local_path r)) w2 = (Returns tt, w3) →
  writeFile (local_path r) d w3 = (Returns tt, w4) →
  getTime w4 = (t, w5) →
  ∃ q1,
    downloadRecord r q = (Ok true, q1) ∧
    trace q1 = trace q ++ [FileExists (local_path r);
                           DownloadFile (filename r);
                           ReadBlob b;
                           MakeDir (remove_first (filename r) (local_path r));
                           WriteFile (local_path r) d;
                           SqlUpdate (with_state SYNCED
                                        (with_media_type (Some (blob_type b))
                                           (ensure_local_uri r))) t;
                           Console Debug] ∧
    (is_Some (db q !! record_id r) →
     (getAttachmentRecord (record_id r) q1).1 =
     Ok (Some {| record_id := record_id r;
                 filename := filename r;
                 local_uri := Some (local_path r);
                 media_type := Some (blob_type b);
                 record_size := record_size r;
                 state := SYNCED;
                 timestamp := t |})) ∧
    (∀ i, i ≠ record_id r → db q1 !! i = db q !! i).
Proof.
  intros Hex Hdown Hread Hdir Hwrite Htime.
  set (r1 := with_state SYNCED (with_media_type (Some (blob_type b)) (ensure_local_uri r))).
  assert (Hrun : downloadRecord r q =
            (Ok true,
             log_event (Console Debug)
               (set_db (sql_update t r1 (db q))
                  (log_event (SqlUpdate r1 t)
                     (set_world w5
                        (set_world w4
                           (log_event (WriteFile (local_path r) d)
                              (set_world w3
                                 (log_event (MakeDir (remove_first (filename r) (local_path r)))
                                    (set_world w2
                                       (log_event (ReadBlob b)
                                          (set_world w1
                                             (log_event (DownloadFile (filename r))
                                                (set_world w0
                                                   (log_event (FileExists (local_path r)) q))))))))))))))).
  { unfold downloadRecord, bind at 1, call at 1. rewrite Hex. simpl.
    unfold try_catch, download_attempt. rewrite filename_ensure. run.
    rewrite Hdown. simpl. rewrite Hread. simpl. rewrite Hdir. simpl.
    rewrite Hwrite. simpl. rewrite Htime. reflexivity. }
  eexists. split_and!.
  - exact Hrun.
  - simpl. by rewrite <- !app_assoc.
  - intros [row Hrow]. simpl. unfold sql_update.
    assert (Hid : record_id r1 = record_id r) by apply record_id_ensure.
    rewrite Hid, lookup_alter_eq, Hrow. simpl. unfold to_record. simpl.
    rewrite filename_ensure, ensure_local_uri_path.
    assert (Hnull : or_null (Some (local_path r)) = Some (local_path r)).
    { unfold or_null. by rewrite local_path_truthy. }
    rewrite Hnull.
    assert (Hsize : record_size (ensure_local_uri r) = record_size r).
    { unfold ensure_local_uri. by destruct (truthy (local_uri r)). }
    by rewrite Hsize.
  - intros i Hi. simpl. apply sql_update_other.
    assert (Hid : record_id r1 = record_id r) by apply record_id_ensure.
    by rewrite Hid.
Qed.

(** X20: [savePhoto] writes the photo under the attachment directory, in a
    file named after a fresh id, and queues it: the record it returns
    is the one read back under that id, and it is an upload candidate.
    When the file cannot be written [savePhoto] raises and queues
    nothing. *)
Theorem savePhoto_queues_upload (data : string) q u w1 :
  uuid (world q) = (u, w1) →
  let name := (u ++ ".jpg")%string in
  let uri := getLocalUri name in
  (∀ w2 info w3,
     writeFile uri data w1 = (Returns tt, w2) →
     getInfoAsync uri w2 = (Returns info, w3) →
     let saved := mkRecord u name (Some uri) (Some "image/jpeg") info QUEUED_UPLOAD
                    (getTime w3).1 in
     (savePhoto data q).1 = Ok saved ∧
     trace (savePhoto data q).2 = trace q ++ [WriteFile uri data] ∧
     (getAttachmentRecord u (savePhoto data q).2).1 = Ok (Some (as_stored saved)) ∧
     (info ≠ Some 0%Z → as_stored saved = saved) ∧
     as_stored saved ∈ select_upload (db (savePhoto data q).2)) ∧
  (∀ e w2,
     writeFile uri data w1 = (Throws e, w2) →
     (savePhoto data q).1 = Throw e ∧ db (savePhoto data q).2 = db q).
Proof.
  intros Huuid name uri.
  assert (Hnew : newPhotoRecord None q =
            (Ok (mkDraft u name (Some uri) (Some "image/jpeg") None QUEUED_UPLOAD None),
             set_world w1 q)).
  { unfold newPhotoRecord, bind. simpl. by rewrite Huuid. }
  split.
  - intros w2 info w3 Hwrite Hinfo saved.
    assert (Hrun : savePhoto data q =
              (Ok saved,
               set_db (sql_insert_or_replace saved (db q))
                 (set_world (getTime w3).2
                    (set_world w3 (set_world w2 (log_event (WriteFile uri data)
                                                   (set_world w1 q))))))).
    { unfold savePhoto, bind at 1. rewrite Hnew. simpl.
      unfold bind at 1, call. simpl. rewrite Hwrite. simpl.
      unfold bind at 1, unlogged. simpl. rewrite Hinfo. simpl.
      rewrite saveToQueue_run. simpl. by destruct info. }
    rewrite Hrun. simpl.
    assert (Hlook : sql_insert_or_replace saved (db q) !! u = Some (bound_row saved)).
    { unfold sql_insert_or_replace. simpl. apply lookup_insert_eq. }
    assert (Huri : or_null (Some uri) = Some uri).
    { unfold or_null, uri. by rewrite getLocalUri_truthy. }
    split_and!.
    + reflexivity.
    + reflexivity.
    + by rewrite Hlook.
    + intros Hsize. unfold as_stored, to_record, bound_row. simpl.
      rewrite Huri, size_or_null_id by done. reflexivity.
    + apply elem_of_select_upload. split.
      * unfold upload_eligible, as_stored. simpl. rewrite Huri. split; [done|by left].
      * apply elem_of_rows. exists (bound_row saved). by split.
  - intros e w2 Hwrite.
    destruct (savePhoto data q) as [o q'] eqn:Hrun. revert Hrun.
    unfold savePhoto, bind at 1. rewrite Hnew. simpl.
    unfold bind at 1, call. simpl. rewrite Hwrite. simpl.
    by intros [= <- <-].
Qed.

End Transfers.

(** ** The directory of a download *)

Section Directory.
Context {W : Type} `{!Platform W}.
Implicit Types (r : AttachmentRecord) (s pat dir : string).

Lemma substring_none (n : nat) s : substring n 0 s = EmptyString.
Proof. revert n. induction s as [|c s IH]; intros [|n]; simpl; auto. Qed.

Lemma substring_append_l s s' : substring 0 (String.length s) (s ++ s') = s.
Proof.
  induction s as [|c s IH]; unfold append; fold append; simpl;
    [apply substring_none|]. by rewrite IH.
Qed.

Lemma length_append s s' :
  String.length (s ++ s') = String.length s + String.length s'.
Proof.
  induction s as [|c s IH]; unfold append; fold append; simpl; [done|].
  by rewrite IH.
Qed.

Lemma append_empty_r s : (s ++ EmptyString)%string = s.
Proof.
  induction s as [|c s IH]; unfold append; fold append; [done|]. by rewrite IH.
Qed.

(** [remove_first] cuts the pattern out where [String.index] finds it. *)
Lemma remove_first_index pat s (m : nat) :
  String.index 0 pat s = Some m →
  remove_first pat s =
  (substring 0 m s
     ++ substring (m + String.length pat)
                  (String.length s - (m + String.length pat)) s)%string.
Proof.
  revert m. induction s as [|c s IH]; intros m.
  - simpl. destruct pat; [|discriminate]. by intros [= <-].
  - unfold String.index; fold String.index. unfold remove_first; fold remove_first.
    destruct (String.prefix pat (String c s)).
    + intros [= <-]. reflexivity.
    + destruct (String.index 0 pat s) as [m'|]; [|discriminate]. intros [= <-].
      rewrite (IH m' eq_refl). reflexivity.
Qed.

(** X21: The directory [downloadRecord] makes is the one the file is
    written in, provided the file name does not occur in the local
    path before its end: [replace] cuts its first occurrence. *)
Theorem download_directory r dir :
  local_path r = (dir ++ filename r)%string →
  String.index 0 (filename r) (local_path r) = Some (String.length dir) →
  remove_first (filename r) (local_path r) = dir.
Proof.
  intros Hpath Hindex. rewrite (remove_first_index _ _ _ Hindex), Hpath.
  rewrite substring_append_l, length_append.
  replace (String.length dir + String.length (filename r)
           - (String.length dir + String.length (filename r))) with 0 by lia.
  by rewrite substring_none, append_empty_r.
Qed.

End Directory.

(** ** Runs of the rest of the queue *)

Lemma workers_return_witness :
  uploadRecords (set_uploading true Scenario.fresh_ab)
  = (Ok tt, set_uploading true Scenario.fresh_ab).
Proof.
  apply (workers_return (set_uploading true Scenario.fresh_ab)). reflexivity.
Defined.

Lemma uploadRecords_touches_candidates_only_witness :
  db (uploadRecords Case.sim_mixed).2 !! "s"
  = Some (Sim.row 40 "s.jpg" (Some "/doc/attachments/s.jpg") SYNCED).
Proof.
  destruct (uploadRecords_touches_candidates_only Case.sim_mixed) as [_ Hrows].
  apply (Hrows "s"); [reflexivity|].
  unfold upload_eligible. simpl. intros [_ [?|?]]; discriminate.
Defined.

Lemma downloadRecords_touches_candidates_only_witness :
  db (downloadRecords Case.sim_mixed).2 !! "a"
  = Some (Sim.row 10 "a.jpg" (Some "/doc/attachments/a.jpg") QUEUED_UPLOAD).
Proof.
  destruct (downloadRecords_touches_candidates_only Case.sim_mixed) as [_ Hrows].
  apply (Hrows "a"); [reflexivity|].
  unfold download_eligible. simpl. intros [?|?]; discriminate.
Defined.

Lemma expireCache_only_removes_synced_witness :
  db (expireCache Case.readonly_mixed).2 !! "c"
  = Some (Sim.row 30 "c.jpg" None QUEUED_DOWNLOAD).
Proof.
  destruct (expireCache_only_removes_synced Case.readonly_mixed) as [_ Hrows].
  apply (Hrows "c"); [reflexivity|discriminate].
Defined.

Lemma upload_without_local_uri_is_stuck_witness :
  db (uploadRecords Case.sim_stuck).2 !! "u" = Some Case.row_stuck ∧
  db (downloadRecords Case.sim_stuck).2 !! "u" = Some Case.row_stuck ∧
  db (expireCache Case.sim_stuck).2 !! "u" = Some Case.row_stuck.
Proof.
  apply (upload_without_local_uri_is_stuck Case.sim_stuck "u" Case.row_stuck);
    reflexivity.
Defined.

Lemma uri_normal_mixed : uri_normal Case.table_mixed.
Proof. apply (bool_decide_unpack _). vm_compute. exact I. Qed.

Lemma local_uri_never_stored_empty_witness :
  uri_normal (db (saveToQueue Case.draft_g Case.sim_mixed).2) ∧
  uri_normal (db (uploadRecords Case.sim_mixed).2) ∧
  truthy (local_uri Scenario.rec_a) = true.
Proof.
  destruct (local_uri_never_stored_empty Case.sim_mixed uri_normal_mixed)
    as (Hsave & _ & _ & _ & _ & _ & _ & Hup & _ & _ & Hnext).
  split_and!; [apply Hsave|apply Hup|].
  apply (Hnext Scenario.rec_a). vm_compute. reflexivity.
Defined.

Lemma uploadRecords_drains_witness :
  select_upload (db (uploadRecords Case.reliable_mixed).2) = [] ∧
  row_state <$> db (uploadRecords Case.reliable_mixed).2 !! "b" = Some SYNCED.
Proof.
  destruct (uploadRecords_drains Case.reliable_mixed) as [Hnone Hall].
  - intros p m w. by exists p, w.
  - intros n b m w. by exists w.
  - exact uri_normal_mixed.
  - reflexivity.
  - split; [exact Hnone|].
    apply (Hall "b" (Sim.row 20 "b.jpg" (Some "/doc/attachments/b.jpg") QUEUED_SYNC));
      [reflexivity|].
    split; [discriminate|by right].
Defined.

Lemma downloadRecords_drains_witness :
  select_download (db (downloadRecords Case.reliable_mixed).2) = [] ∧
  row_state <$> db (downloadRecords Case.reliable_mixed).2 !! "c" = Some SYNCED.
Proof.
  destruct (downloadRecords_drains Case.reliable_mixed) as [Hnone Hall].
  - intros p w. by exists false, w.
  - intros n w. by exists (mkBlob "image/png" n), w.
  - intros b w. by exists (blob_data b), w.
  - intros p w. by exists w.
  - intros p d w. by exists w.
  - reflexivity.
  - split; [exact Hnone|].
    apply (Hall "c" (Sim.row 30 "c.jpg" None QUEUED_DOWNLOAD)); [reflexivity|].
    by left.
Defined.

Lemma delete_commits_before_file_witness :
  local_path (W := Sim.World) Scenario.rec_c = "/doc/attachments/c.jpg".
Proof.
  destruct (delete_commits_before_file (W := Sim.World) Scenario.rec_c Scenario.offline_cd)
    as (_ & _ & _ & Hpath).
  by rewrite Hpath.
Defined.

Lemma expireCache_rolls_back_witness :
  (expireCache Case.pinned_sop).1 = Throw Pinned.busy ∧
  db (expireCache Case.pinned_sop).2 = Case.table_sop ∧
  Pinned.removed (world (expireCache Case.pinned_sop).2) = ["/doc/attachments/s.jpg"].
Proof.
  destruct (expireCache_rolls_back Case.pinned_sop 0 [Case.rec_s] [Case.rec_p] Case.rec_o
              (Pinned.mkWorld 1000 ["/doc/attachments/s.jpg"]) Pinned.busy
              (Pinned.mkWorld 1000 ["/doc/attachments/s.jpg"]))
    as (Hraise & Hdb & _ & Hworld & _); [vm_compute; reflexivity..|].
  split_and!; [exact Hraise|exact Hdb|by rewrite Hworld].
Defined.

Lemma getNextUploadRecord_oldest_witness :
  (timestamp Scenario.rec_a ≤ timestamp Scenario.rec_b)%Z.
Proof.
  pose proof (getNextUploadRecord_oldest Scenario.fresh_ab) as Hhead.
  assert (Hrun : (getNextUploadRecord Scenario.fresh_ab).1 = Ok (Some Scenario.rec_a))
    by (vm_compute; reflexivity).
  rewrite Hrun in Hhead. apply Hhead.
  - apply elem_of_rows. by eexists.
  - split; [discriminate|by left].
Defined.

Lemma init_starts_last_witness :
  init Case.readonly_mixed
  = (Throw ReadOnly.refused,
     set_world (ReadOnly.mkWorld 1000)
       (log_event (MakeDir "/doc/attachments") Case.readonly_mixed)).
Proof.
  destruct (init_starts_last Case.readonly_mixed) as (_ & Hdir & _).
  apply Hdir. reflexivity.
Defined.

Lemma markForSync_queues_both_ways_witness :
  to_record "c" (row_with_state QUEUED_SYNC (Sim.row 30 "c.jpg" None QUEUED_DOWNLOAD))
    ∈ select_download (db (markForSync ["c"; "s"] Case.sim_mixed).2).
Proof.
  destruct (markForSync_queues_both_ways ["c"; "s"] Case.sim_mixed eq_refl)
    as (_ & _ & Hall).
  apply Hall; [apply list_elem_of_here|reflexivity].
Defined.

Lemma upload_success_advances_witness :
  ∃ q1, uploadAttachment Scenario.rec_a Scenario.fresh_ab = (Ok true, q1) ∧
        ∀ r', r' ∈ select_upload (db q1) → record_id r' ≠ "a".
Proof.
  pose (w := world Scenario.fresh_ab).
  pose (w2 := Sim.mkWorld (Sim.files w) {[ "a.jpg" := mkBlob "image/jpeg" "AAAA" ]} true 1000).
  destruct (upload_success_advances 0 Scenario.rec_a Scenario.fresh_ab
              "/doc/attachments/a.jpg" "AAAA" w w2 1000%Z
              (Sim.mkWorld (Sim.files w2) (Sim.remote w2) true 1001))
    as (q1 & Hrun & _ & _ & _ & Hgone); [reflexivity..|].
  by exists q1.
Defined.

Lemma download_success_writes_then_marks_witness :
  ∃ q1, downloadRecord Scenario.rec_c Case.reliable_mixed = (Ok true, q1) ∧
        (getAttachmentRecord "c" q1).1
        = Ok (Some (mkRecord "c" "c.jpg" (Some "/doc/attachments/c.jpg")
                      (Some "image/png") None SYNCED 1000)).
Proof.
  destruct (download_success_writes_then_marks Scenario.rec_c Case.reliable_mixed
              (Reliable.mkWorld 1000) (mkBlob "image/png" "c.jpg") (Reliable.mkWorld 1000)
              "c.jpg" (Reliable.mkWorld 1000) (Reliable.mkWorld 1000)
              (Reliable.mkWorld 1000) 1000%Z (Reliable.mkWorld 1001))
    as (q1 & Hrun & _ & Hread & _); [reflexivity..|].
  exists q1. split; [exact Hrun|]. apply Hread. by eexists.
Defined.

Lemma savePhoto_queues_upload_witness :
  (savePhoto "AAAA" Scenario.empty_queue).1
  = Ok (mkRecord "photo-1000" "photo-1000.jpg" (Some "/doc/attachments/photo-1000.jpg")
          (Some "image/jpeg") (Some 4%Z) QUEUED_UPLOAD 1001).
Proof.
  pose (w1 := Sim.mkWorld ∅ ∅ true 1001).
  pose (w2 := Sim.mkWorld {[ "/doc/attachments/photo-1000.jpg" := "AAAA" ]} ∅ true 1001).
  assert (Huuid : uuid (world Scenario.empty_queue) = ("photo-1000", w1))
    by (vm_compute; reflexivity).
  destruct (savePhoto_queues_upload "AAAA" Scenario.empty_queue "photo-1000" w1 Huuid)
    as [Hok _].
  apply (Hok w2 (Some 4%Z) w2); vm_compute; reflexivity.
Defined.

Lemma download_directory_witness :
  remove_first "c.jpg" (local_path (W := Sim.World) Scenario.rec_c) = "/doc/attachments/".
Proof.
  apply (download_directory (W := Sim.World) Scenario.rec_c "/doc/attachments/");
    reflexivity.
Defined.
